(** * Visual HTML editor: the document tagger, the bootstrapper,
      the injected runtime and the host controller

    A shallow embedding of [src/utils/iframeUtils.js] and of the message
    handling of [src/components/VisualHtmlEditor.jsx].

    The DOM is modelled the way the scripts use it.  An element is a JS
    object: it has an identity (a reference into a heap of element
    records) and the tree only records which references are children of
    which.  Attribute and style writes go to the heap, so an element that
    was detached from the tree keeps its record, and two occurrences of
    one reference are one element.

    What the browser does and the repository does not (parsing HTML,
    serialising a tree, parsing a selector the script pasted an arbitrary
    string into, [Math.random]) is taken as a [Browser] record that every
    definition and theorem is parametric in. *)

From Stdlib Require Import Ascii String.
From stdpp Require Import base strings list gmap fin_maps pretty.

Set Warnings "-register-all".
Open Scope string_scope.
Open Scope list_scope.
Open Scope nat_scope.

(** * Part I: the model *)

(** ** Strings as the scripts build them *)

(** [String.prototype.toLowerCase] on the ASCII letters; every other byte
    is left alone.  The scripts only compare its result with ['img'], and
    no non-ASCII letter lower-cases to [i], [m] or [g]. *)
Definition lowerChar (c : ascii) : ascii :=
  let n := nat_of_ascii c in
  if (65 <=? n)%nat && (n <=? 90)%nat then ascii_of_nat (n + 32) else c.

Fixpoint toLowerCase (s : string) : string :=
  match s with
  | EmptyString => EmptyString
  | String c rest => String (lowerChar c) (toLowerCase rest)
  end.

Definition upperChar (c : ascii) : ascii :=
  let n := nat_of_ascii c in
  if (97 <=? n)%nat && (n <=? 122)%nat then ascii_of_nat (n - 32) else c.

Fixpoint toUpperCase (s : string) : string :=
  match s with
  | EmptyString => EmptyString
  | String c rest => String (upperChar c) (toUpperCase rest)
  end.

Arguments toLowerCase : simpl never.
Arguments toUpperCase : simpl never.

(** The double quote and the line feed, written by their codes. *)
Definition dquote : string := String (ascii_of_nat 34) EmptyString.
Definition newline : string := String (ascii_of_nat 10) EmptyString.

(** JS truthiness of a value that is a string or [null]. *)
Definition truthy (v : option string) : bool :=
  match v with
  | Some s => negb (bool_decide (s = EmptyString))
  | None => false
  end.

(** ** Elements, nodes and the heap *)

(** The identity of an element object. *)
Abbreviation ref := nat (only parsing).

(** One element object: [tagName] as the property returns it, the content
    attributes, and the declarations of [el.style]. *)
Record Element := mkElement {
  tagName : string;
  attributes : gmap string string;
  style : gmap string string
}.

Inductive Node :=
| ElementNode (r : ref) (childNodes : list Node)
| TextNode (data : string).

(** Markup that has not been given identities yet: what a parser returns
    before the nodes are created. *)
Inductive Markup :=
| MElement (e : Element) (children : list Markup)
| MText (data : string).

(** A document: the heap of element objects and the tree under
    [document.documentElement]. *)
Record Document := mkDocument {
  heap : gmap ref Element;
  root : Node
}.

(** What the HTML parser hands back for a whole document.  Whatever the
    input, it builds an [html] element with a [head] and then a [body] (or
    a [frameset]) under it; the three records give their attributes, and
    [pFrameset] tells which of the two the last one is. *)
Record ParsedDocument := mkParsed {
  pHtml : Element;
  pHead : Element;
  pHeadNodes : list Markup;
  pBody : Element;
  pFrameset : bool;
  pBodyNodes : list Markup
}.

(** The outcome of [document.querySelector]: a [SyntaxError], [null], or
    the first matching element. *)
Inductive QueryResult :=
| QueryThrows
| QueryNull
| QueryFound (el : ref).

(** The browser. *)
Record Browser := mkBrowser {
  (** [new DOMParser().parseFromString(html, "text/html")] *)
  parseFromString : string → ParsedDocument;
  (** the HTML fragment parser, for [el.innerHTML = v] with [el] as the
      context element *)
  parseFragment : Element → string → list Markup;
  (** [node.outerHTML] *)
  serialize : gmap ref Element → Node → string;
  (** [document.querySelector(sel)] for a selector text that the script
      built around a string which does not stay inside its quotes *)
  queryUnsafe : string → Document → QueryResult;
  (** the [n]-th value of [Math.random().toString(36).slice(2,9)] *)
  random36 : nat → string
}.

Definition withAttributes (f : gmap string string → gmap string string)
    (e : Element) : Element :=
  mkElement (tagName e) (f (attributes e)) (style e).

Definition withStyle (f : gmap string string → gmap string string)
    (e : Element) : Element :=
  mkElement (tagName e) (attributes e) (f (style e)).

Definition withTag (t : string) (e : Element) : Element :=
  mkElement t (attributes e) (style e).

(** Attribute names of HTML elements are matched in ASCII lower case. *)
Definition attrKey (name : string) : string := toLowerCase name.

Arguments attrKey : simpl never.

Definition getAttribute (h : gmap ref Element) (r : ref) (name : string)
    : option string :=
  h !! r ≫= λ e, attributes e !! attrKey name.

Definition hasAttribute (h : gmap ref Element) (r : ref) (name : string)
    : bool :=
  bool_decide (is_Some (getAttribute h r name)).

Definition setAttribute (h : gmap ref Element) (r : ref) (name value : string)
    : gmap ref Element :=
  alter (withAttributes (insert (attrKey name) value)) r h.

Definition removeAttribute (h : gmap ref Element) (r : ref) (name : string)
    : gmap ref Element :=
  alter (withAttributes (delete (attrKey name))) r h.

(** [el.style[k] = v] *)
Definition setStyle (h : gmap ref Element) (r : ref) (k v : string)
    : gmap ref Element :=
  alter (withStyle (insert k v)) r h.

Definition getStyle (h : gmap ref Element) (r : ref) (k : string)
    : option string :=
  h !! r ≫= λ e, style e !! k.

(** [el.tagName.toLowerCase()] *)
Definition lowerTag (h : gmap ref Element) (r : ref) : option string :=
  (λ e, toLowerCase (tagName e)) <$> h !! r.

(** [el.tagName.toLowerCase()==='img'] *)
Definition isImg (h : gmap ref Element) (r : ref) : bool :=
  bool_decide (lowerTag h r = Some "img").

(** ** Tree traversal and tree edits *)

(** The elements of a subtree in document order, the subtree's own root
    first. *)
Fixpoint elementsOf (n : Node) : list ref :=
  match n with
  | ElementNode r kids => r :: flat_map elementsOf kids
  | TextNode _ => []
  end.

(** What [createTreeWalker(n, SHOW_ELEMENT)] yields under [nextNode()]:
    the element descendants of [n] in document order, without [n]. *)
Definition walk (n : Node) : list ref :=
  match n with
  | ElementNode _ kids => flat_map elementsOf kids
  | TextNode _ => []
  end.

(** The subtree of the first node whose element is [r]. *)
Fixpoint findNode (r : ref) (n : Node) : option Node :=
  match n with
  | ElementNode r' kids =>
      if decide (r' = r) then Some n
      else (fix first (ks : list Node) : option Node :=
              match ks with
              | [] => None
              | k :: ks' =>
                  match findNode r k with
                  | Some x => Some x
                  | None => first ks'
                  end
              end) kids
  | TextNode _ => None
  end.

(** The same search through a list of siblings. *)
Definition findAmong (r : ref) : list Node → option Node :=
  fix first (ks : list Node) : option Node :=
    match ks with
    | [] => None
    | k :: ks' =>
        match findNode r k with
        | Some x => Some x
        | None => first ks'
        end
    end.

(** The children of [r], [[]] for an element that is not in the tree. *)
Definition childrenOf (r : ref) (n : Node) : list Node :=
  match findNode r n with
  | Some (ElementNode _ kids) => kids
  | _ => []
  end.

(** Rewrite the child list of the element [el]. *)
Fixpoint updateChildren (el : ref) (f : list Node → list Node) (n : Node)
    : Node :=
  match n with
  | ElementNode r kids =>
      if decide (r = el) then ElementNode r (f kids)
      else ElementNode r (map (updateChildren el f) kids)
  | TextNode s => TextNode s
  end.

(** [parent.appendChild(child)] for a [child] that has no parent yet. *)
Definition appendChild (parent : ref) (child : Node) (n : Node) : Node :=
  updateChildren parent (λ kids, kids ++ [child]) n.

(** [document.body]: the first child of the [html] root that is a [body]
    or a [frameset]; [document.head]: its first [head] child. *)
Definition childTagged (h : gmap ref Element) (tags : list string) (n : Node)
    : bool :=
  match n with
  | ElementNode r _ =>
      match lowerTag h r with
      | Some t => bool_decide (t ∈ tags)
      | None => false
      end
  | TextNode _ => false
  end.

Definition rootChild (d : Document) (tags : list string) : option Node :=
  match root d with
  | ElementNode r kids =>
      if bool_decide (lowerTag (heap d) r = Some "html")
      then List.find (childTagged (heap d) tags) kids
      else None
  | TextNode _ => None
  end.

Definition bodyOf (d : Document) : option Node :=
  rootChild d ["body"; "frameset"].

Definition headOf (d : Document) : option Node :=
  rootChild d ["head"].

Definition nodeRef (n : Node) : option ref :=
  match n with
  | ElementNode r _ => Some r
  | TextNode _ => None
  end.

(** ** Creating nodes *)

(** A new element object gets a reference no object has. *)
Definition newRef (h : gmap ref Element) : ref := fresh (dom h).

(** Create the nodes of a piece of markup, in document order. *)
Fixpoint create (m : Markup) (h : gmap ref Element)
    : Node * gmap ref Element :=
  match m with
  | MElement e kids =>
      let r := newRef h in
      let '(ks, h') :=
        (fix all (ms : list Markup) (h : gmap ref Element)
             : list Node * gmap ref Element :=
           match ms with
           | [] => ([], h)
           | m' :: ms' =>
               let '(n, h1) := create m' h in
               let '(ns, h2) := all ms' h1 in
               (n :: ns, h2)
           end) kids (<[r := e]> h) in
      (ElementNode r ks, h')
  | MText s => (TextNode s, h)
  end.

Fixpoint createAll (ms : list Markup) (h : gmap ref Element)
    : list Node * gmap ref Element :=
  match ms with
  | [] => ([], h)
  | m :: ms' =>
      let '(n, h1) := create m h in
      let '(ns, h2) := createAll ms' h1 in
      (n :: ns, h2)
  end.

(** [document.createElement(tag)] in an HTML document: a detached element
    with no attributes; [tagName] reads in upper case. *)
Definition createElement (h : gmap ref Element) (tag : string)
    : ref * gmap ref Element :=
  let r := newRef h in
  (r, <[r := mkElement (toUpperCase tag) ∅ ∅]> h).

(** The document the parser builds: [html] with [head] and [body] (or
    [frameset]) under it, then the content of the head and of the body. *)
Definition bodyTag (p : ParsedDocument) : string :=
  if pFrameset p then "FRAMESET" else "BODY".

Definition load (p : ParsedDocument) : Document :=
  let h0 : gmap ref Element :=
    <[0 := withTag "HTML" (pHtml p)]>
    (<[1 := withTag "HEAD" (pHead p)]>
    (<[2 := withTag (bodyTag p) (pBody p)]> ∅)) in
  let '(headKids, h1) := createAll (pHeadNodes p) h0 in
  let '(bodyKids, h2) := createAll (pBodyNodes p) h1 in
  mkDocument h2
    (ElementNode 0 [ElementNode 1 headKids; ElementNode 2 bodyKids]).

(** ** The document tagger: [attachEditorIds] *)

Definition EDITOR_ID : string := "data-editor-id".
Definition SELECTED : string := "data-selected".
Definition CONTENT_EDITABLE : string := "contentEditable".

(** The body of the [while (walker.nextNode())] loop, over the elements
    the walker yields, with the local [counter].  The counter is a JS
    number; it stays far below 2^53, where [nat] and it agree. *)
Fixpoint tagLoop (els : list ref) (counter : nat) (h : gmap ref Element)
    : gmap ref Element :=
  match els with
  | [] => h
  | el :: rest =>
      if hasAttribute h el EDITOR_ID
      then tagLoop rest counter h
      else tagLoop rest (S counter)
             (setAttribute h el EDITOR_ID ("el-" +:+ pretty counter))
  end.

(** [attachEditorIds(doc)].  [None] is the [TypeError] that
    [createTreeWalker] raises when [doc.body] is [null]. *)
Definition attachEditorIds (d : Document) : option Document :=
  b ← bodyOf d;
  Some (mkDocument (tagLoop (walk b) 1 (heap d)) (root d)).

(** ** The bootstrapper: [buildIframeContents] *)

(** The text assigned to [style.innerHTML]. *)
Definition STYLE_TEXT : string :=
  "
    [data-editor-id][data-selected="
  +:+ dquote
  +:+ "true"
  +:+ dquote
  +:+ "]{outline:3px solid #2563eb66; box-shadow:0 2px 8px rgba(37,99,235,0.12);} 
    [data-editor-id]{cursor: pointer;}
  ".

(** The text assigned to [script.innerHTML]: the runtime, whose meaning
    is modelled below ([onClick], [onMessage], [makeInteractive], ...). *)
Definition SCRIPT_TEXT : string :=
  "
    (function(){
      function post(msg){ parent.postMessage(msg, '*'); }
      // make elements selectable and optionally editable
      function makeInteractive(){
        const walker = document.createTreeWalker(document.body, NodeFilter.SHOW_ELEMENT, null, false);
        while(walker.nextNode()){
          const el = walker.currentNode;
          if(!el.hasAttribute('data-editor-id')){
            el.setAttribute('data-editor-id', 'el-'+Math.random().toString(36).slice(2,9));
          }
          // avoid adding handlers to the html/body root repeatedly
          el.addEventListener('click', function(ev){
            ev.stopPropagation();
            // set selected attribute
            Array.from(document.querySelectorAll('[data-editor-id]')).forEach(e=>e.removeAttribute('data-selected'));
            this.setAttribute('data-selected','true');
            // focus contentEditable for text-like elements
            const isImg = this.tagName.toLowerCase()==='img';
            if(!isImg){
              this.setAttribute('contentEditable','true');
              // ensure caret placement
              const sel = window.getSelection();
              sel.removeAllRanges();
              const range = document.createRange();
              range.selectNodeContents(this);
              sel.addRange(range);
            }
            post({type:'selection', id:this.getAttribute('data-editor-id'), tag:this.tagName.toLowerCase(), outerHTML:this.outerHTML});
          }, false);

          // make images non-contentEditable but clickable
          if(el.tagName.toLowerCase()==='img'){
            el.setAttribute('draggable','false');
          }
        }
      }

      // when content changes, notify parent
      document.addEventListener('input', function(ev){
        const target = ev.target;
        if(target && target.getAttribute && target.getAttribute('data-editor-id')){
          post({type:'content-changed', id: target.getAttribute('data-editor-id'), outerHTML: target.outerHTML});
        }
      }, true);

      // listen to messages from parent
      window.addEventListener('message', function(e){
        const msg = e.data || {};
        try{
          if(msg.type === 'apply-props'){
            const el = document.querySelector('[data-editor-id="
  +:+ dquote
  +:+ "'+msg.id+'"
  +:+ dquote
  +:+ "]');
            if(!el) return;
            if(msg.props){
              Object.entries(msg.props).forEach(([k,v])=>{
                if(k === 'innerHTML') el.innerHTML = v;
                else if(k === 'src' && el.tagName.toLowerCase()==='img') el.src = v;
                else el.style[k] = v;
              });
            }
          } else if(msg.type === 'clear-selection'){
            Array.from(document.querySelectorAll('[data-selected]')).forEach(e=>e.removeAttribute('data-selected'));
          }
        }catch(err){/* ignore */}
      });

      // initial setup
      makeInteractive();
      // observe DOM additions to make them interactive too
      const obs = new MutationObserver(()=>{ makeInteractive(); });
      obs.observe(document.body, {childList:true, subtree:true});

      // inform parent that iframe is ready and send full HTML
      post({type:'iframe-ready', html: document.documentElement.outerHTML});
    })();
  ".

Definition DOCTYPE : string := "<!doctype html>" +:+ newline.

(** The child nodes that [el.innerHTML = text] gives an element with
    record [e].  [script] and [style] hold raw text: one text node with
    the string, none for the empty string.  Everything else is the
    browser's fragment parser. *)
Definition fragment (browser : Browser) (e : Element) (text : string)
    : list Markup :=
  if bool_decide (toLowerCase (tagName e) ∈ ["script"; "style"])
  then (if bool_decide (text = EmptyString) then [] else [MText text])
  else parseFragment browser e text.

(** [el.innerHTML = text] on an element that is in the tree of [d]. *)
Definition setInnerHTML (browser : Browser) (el : ref) (text : string)
    (d : Document) : Document :=
  match heap d !! el with
  | Some e =>
      let '(kids, h) := createAll (fragment browser e text) (heap d) in
      mkDocument h (updateChildren el (λ _, kids) (root d))
  | None => d
  end.

(** The same on an element that [createElement] just made and that has no
    parent yet: the new subtree and the heap. *)
Definition detachedWithHTML (browser : Browser) (el : ref) (text : string)
    (h : gmap ref Element) : Node * gmap ref Element :=
  match h !! el with
  | Some e =>
      let '(kids, h') := createAll (fragment browser e text) h in
      (ElementNode el kids, h')
  | None => (ElementNode el [], h)
  end.

(** What [buildIframeContents] does to the parsed document before it
    serialises it: tag, append the style block to the head and the script
    to the body.  [None] is a [TypeError]: a [null] body in
    [attachEditorIds], or [appendChild] on a [null] head or body. *)
Definition injectInto (browser : Browser) (doc : Document)
    : option Document :=
  doc ← attachEditorIds doc;
  let '(style, h1) := createElement (heap doc) "style" in
  let '(styleNode, h2) := detachedWithHTML browser style STYLE_TEXT h1 in
  headNode ← headOf (mkDocument h2 (root doc));
  head ← nodeRef headNode;
  let tree1 := appendChild head styleNode (root doc) in
  let '(script, h3) := createElement h2 "script" in
  let h4 := setAttribute h3 script "type" "text/javascript" in
  let '(scriptNode, h5) := detachedWithHTML browser script SCRIPT_TEXT h4 in
  bodyNode ← bodyOf (mkDocument h5 tree1);
  body ← nodeRef bodyNode;
  Some (mkDocument h5 (appendChild body scriptNode tree1)).

(** The document that [buildIframeContents] serialises. *)
Definition bootstrapDocument (browser : Browser) (html : string)
    : option Document :=
  injectInto browser (load (parseFromString browser html)).

Definition buildIframeContents (browser : Browser) (html : string)
    : option string :=
  doc ← bootstrapDocument browser html;
  Some (DOCTYPE +:+ serialize browser (heap doc) (root doc)).

(** ** The runtime: the injected script *)

(** Messages to the host ([parent.postMessage]). *)
Inductive ToHost :=
| Selection (id : option string) (tag : string) (outerHTML : string)
| ContentChanged (id : string) (outerHTML : string)
| IframeReady (html : string).

(** Messages to the frame; [props] is [None] when [msg.props] is falsy,
    and the entries come in [Object.entries] order. *)
Inductive ToFrame :=
| ApplyProps (id : string) (props : option (list (string * string)))
| ClearSelection
| Unrecognised.

Record Runtime := mkRuntime {
  document : Document;
  (** how many click listeners [makeInteractive] has added to an element *)
  listeners : gmap ref nat;
  (** [window.getSelection()]: its ranges, each one selecting the
      contents of an element *)
  ranges : list ref;
  (** what was posted to the parent, oldest first *)
  posted : list ToHost;
  (** calls of [Math.random] so far *)
  draws : nat
}.

Definition withDocument (st : Runtime) (d : Document) : Runtime :=
  mkRuntime d (listeners st) (ranges st) (posted st) (draws st).

Definition post (msg : ToHost) (st : Runtime) : Runtime :=
  mkRuntime (document st) (listeners st) (ranges st) (posted st ++ [msg])
    (draws st).

(** All elements of the document, in document order. *)
Definition allElements (d : Document) : list ref := elementsOf (root d).

(** [document.querySelectorAll('[name]')] *)
Definition querySelectorAll (name : string) (d : Document) : list ref :=
  filter (λ r, hasAttribute (heap d) r name = true) (allElements d).

(** [el.removeAttribute(name)] for each [el] of a list. *)
Definition removeFromAll (name : string) (els : list ref)
    (h : gmap ref Element) : gmap ref Element :=
  foldl (λ h e, removeAttribute h e name) h els.

(** [this.outerHTML] *)
Definition outerHTML (browser : Browser) (d : Document) (r : ref) : string :=
  serialize browser (heap d) (ElementNode r (childrenOf r (root d))).

(** The click listener, with [this] the element it was added to. *)
Definition onClick (browser : Browser) (this : ref) (st : Runtime)
    : Runtime :=
  let d := document st in
  let h1 := removeFromAll SELECTED (querySelectorAll EDITOR_ID d) (heap d) in
  let h2 := setAttribute h1 this SELECTED "true" in
  let isImage := isImg h2 this in
  let h3 := if isImage then h2
            else setAttribute h2 this CONTENT_EDITABLE "true" in
  let rs := if isImage then ranges st else [this] in
  let d3 := mkDocument h3 (root d) in
  mkRuntime d3 (listeners st) rs
    (posted st ++
       [Selection (getAttribute h3 this EDITOR_ID)
          (default EmptyString (lowerTag h3 this))
          (outerHTML browser d3 this)])
    (draws st).

(** A click whose target is [target].  Every listener that was added to
    the target runs, in turn; the first one stops the propagation, so no
    ancestor's listener runs.  (A target without a listener lets the click
    bubble to the nearest ancestor that has one, which is then a click on
    that ancestor as far as the listener can tell.) *)
Definition click (browser : Browser) (target : ref) (st : Runtime)
    : Runtime :=
  Nat.iter (default 0 (listeners st !! target)) (onClick browser target) st.

(** The body of the loop of [makeInteractive]. *)
Fixpoint interactiveLoop (browser : Browser) (els : list ref)
    (h : gmap ref Element) (ls : gmap ref nat) (n : nat)
    : gmap ref Element * gmap ref nat * nat :=
  match els with
  | [] => (h, ls, n)
  | el :: rest =>
      let '(h1, n1) :=
        if hasAttribute h el EDITOR_ID then (h, n)
        else (setAttribute h el EDITOR_ID ("el-" +:+ random36 browser n),
              S n) in
      let ls1 := <[el := S (default 0 (ls !! el))]> ls in
      let h2 := if isImg h1 el then setAttribute h1 el "draggable" "false"
                else h1 in
      interactiveLoop browser rest h2 ls1 n1
  end.

(** [makeInteractive()].  Without a body [createTreeWalker] throws and
    nothing has happened yet. *)
Definition makeInteractive (browser : Browser) (st : Runtime) : Runtime :=
  match bodyOf (document st) with
  | Some b =>
      let '(h, ls, n) :=
        interactiveLoop browser (walk b) (heap (document st)) (listeners st)
          (draws st) in
      mkRuntime (mkDocument h (root (document st))) ls (ranges st)
        (posted st) n
  | None => st
  end.

(** The [input] listener on the document. *)
Definition onInput (browser : Browser) (target : ref) (st : Runtime)
    : Runtime :=
  match getAttribute (heap (document st)) target EDITOR_ID with
  | Some id =>
      if truthy (Some id)
      then post (ContentChanged id (outerHTML browser (document st) target)) st
      else st
  | None => st
  end.

(** The selector text of the [apply-props] branch. *)
Definition selectorText (id : string) : string :=
  "[data-editor-id=" +:+ dquote +:+ id +:+ dquote +:+ "]".

(** An identifier stays inside the quotes of the selector when it has no
    quote, backslash, line break or NUL in it. *)
Definition selectorSafe (id : string) : bool :=
  forallb (λ c, negb (bool_decide (nat_of_ascii c ∈ [0; 10; 12; 13; 34; 92])))
    (list_ascii_of_string id).

(** [document.querySelector('[data-editor-id="'+id+'"]')] *)
Definition querySelectorById (browser : Browser) (d : Document) (id : string)
    : QueryResult :=
  if selectorSafe id
  then match List.find
               (λ r, bool_decide (getAttribute (heap d) r EDITOR_ID = Some id))
               (allElements d) with
       | Some el => QueryFound el
       | None => QueryNull
       end
  else queryUnsafe browser (selectorText id) d.

(** One round of the [forEach] over [Object.entries(msg.props)]. *)
Definition applyEntry (browser : Browser) (el : ref) (d : Document)
    (entry : string * string) : Document :=
  let '(k, v) := entry in
  if bool_decide (k = "innerHTML") then setInnerHTML browser el v d
  else if bool_decide (k = "src") && isImg (heap d) el
       then mkDocument (setAttribute (heap d) el "src" v) (root d)
       else mkDocument (setStyle (heap d) el k v) (root d).

(** How a block of statements ends. *)
Inductive Completion :=
| Normal (st : Runtime)
| Thrown (st : Runtime).

(** The [try] block of the message listener. *)
Definition commandBody (browser : Browser) (st : Runtime) (msg : ToFrame)
    : Completion :=
  match msg with
  | ApplyProps id props =>
      match querySelectorById browser (document st) id with
      | QueryThrows => Thrown st
      | QueryNull => Normal st
      | QueryFound el =>
          match props with
          | Some entries =>
              Normal (withDocument st
                        (foldl (applyEntry browser el) (document st) entries))
          | None => Normal st
          end
      end
  | ClearSelection =>
      let d := document st in
      Normal (withDocument st
                (mkDocument
                   (removeFromAll SELECTED (querySelectorAll SELECTED d)
                      (heap d))
                   (root d)))
  | Unrecognised => Normal st
  end.

(** The message listener: [try { ... } catch (err) { /* ignore */ }]. *)
Definition onMessage (browser : Browser) (st : Runtime) (msg : ToFrame)
    : Runtime :=
  match commandBody browser st msg with
  | Normal st' => st'
  | Thrown st' => st'
  end.

(** What runs when the script is loaded. *)
Definition startup (browser : Browser) (st : Runtime) : Runtime :=
  match bodyOf (document st) with
  | Some _ =>
      let st1 := makeInteractive browser st in
      post (IframeReady (serialize browser (heap (document st1))
                           (root (document st1)))) st1
  | None => st
  end.

(** Everything that can happen to a loaded document. *)
Inductive Event :=
| Click (target : ref)
| Command (msg : ToFrame)
| Mutated
| Input (target : ref).

Definition step (browser : Browser) (st : Runtime) (ev : Event) : Runtime :=
  match ev with
  | Click target => click browser target st
  | Command msg => onMessage browser st msg
  | Mutated => makeInteractive browser st
  | Input target => onInput browser target st
  end.

Definition run (browser : Browser) (st : Runtime) (evs : list Event)
    : Runtime :=
  foldl (step browser) st evs.

(** An element carries the "selected" marker when it has an identifier
    and the [data-selected] attribute: what the first rule of
    [STYLE_TEXT] draws the outline on. *)
Definition marked (st : Runtime) (r : ref) : bool :=
  hasAttribute (heap (document st)) r EDITOR_ID
  && hasAttribute (heap (document st)) r SELECTED.

(** An element that can be clicked: it is in the document, it has an
    identifier and [makeInteractive] has added a listener to it. *)
Definition clickable (st : Runtime) (r : ref) : Prop :=
  r ∈ allElements (document st)
  ∧ is_Some (heap (document st) !! r)
  ∧ hasAttribute (heap (document st)) r EDITOR_ID = true
  ∧ 0 < default 0 (listeners st !! r).

(** ** The host controller: [VisualHtmlEditor] *)

Record SelectionInfo := mkInfo {
  infoId : option string;
  infoTag : string;
  infoOuterHTML : string
}.

Record Host := mkHost {
  (** [iframeRef.current] is not [null] *)
  iframeMounted : bool;
  htmlSource : string;
  selectedId : option string;
  selectionInfo : option SelectionInfo;
  (** what was posted to the frame, oldest first *)
  sent : list ToFrame;
  (** pending [setTimeout(..., 80)] callbacks *)
  timers : nat
}.

(** The [message] listener of the host.  [cur] is what reading
    [iframe.contentDocument.documentElement.outerHTML] gives, [None] when
    the read throws. *)
Definition handler (h : Host) (msg : ToHost) (cur : option string) : Host :=
  match msg with
  | Selection id tag outer =>
      mkHost (iframeMounted h) (htmlSource h) id (Some (mkInfo id tag outer))
        (sent h) (timers h)
  | ContentChanged _ _ =>
      if iframeMounted h then
        match cur with
        | Some text =>
            mkHost (iframeMounted h) text (selectedId h) (selectionInfo h)
              (sent h) (timers h)
        | None => h
        end
      else h
  | IframeReady html =>
      mkHost (iframeMounted h) html (selectedId h) (selectionInfo h)
        (sent h) (timers h)
  end.

(** The host takes its messages one at a time. *)
Definition deliver (h : Host) (inbox : list (ToHost * option string)) : Host :=
  foldl (λ h m, handler h m.1 m.2) h inbox.

Definition applyPropsToSelected (h : Host) (props : list (string * string))
    : Host :=
  if negb (iframeMounted h) || negb (truthy (selectedId h)) then h
  else mkHost (iframeMounted h) (htmlSource h) (selectedId h)
         (selectionInfo h)
         (sent h ++ [ApplyProps (default EmptyString (selectedId h))
                       (Some props)])
         (S (timers h)).

Definition clearSelection (h : Host) : Host :=
  if negb (iframeMounted h) then h
  else mkHost (iframeMounted h) (htmlSource h) None None
         (sent h ++ [ClearSelection]) (timers h).

(** ** Predicates the statements use *)

(** Every element of the list is an object of the heap. *)
Definition allocated (h : gmap ref Element) (els : list ref) : Prop :=
  Forall (λ r, is_Some (h !! r)) els.

(** No identifier is carried by two elements of the list. *)
Definition distinctIdentifiers (h : gmap ref Element) (els : list ref)
    : Prop :=
  ∀ r1 r2 v, r1 ∈ els → r2 ∈ els →
    getAttribute h r1 EDITOR_ID = Some v →
    getAttribute h r2 EDITOR_ID = Some v → r1 = r2.

(** How many elements of the list have no identifier yet. *)
Definition untagged (h : gmap ref Element) (els : list ref) : nat :=
  length (filter (λ r, hasAttribute h r EDITOR_ID = false) els).


(** Between two heaps, an attribute [n] whose value is in [V] keeps a
    value in [V] on every element. *)
Definition stable (n : string) (V : string → Prop)
    (h h' : gmap ref Element) : Prop :=
  ∀ r v, getAttribute h r n = Some v → V v →
    ∃ v', getAttribute h' r n = Some v' ∧ V v'.

(** What the click listener and the dispatch read but never change: the
    tree, the listeners, which objects exist, their tags, and every
    attribute but [data-selected] and [contentEditable]. *)
Definition sameFrame (st st' : Runtime) : Prop :=
  root (document st') = root (document st)
  ∧ listeners st' = listeners st
  ∧ (∀ r, is_Some (heap (document st') !! r) ↔
          is_Some (heap (document st) !! r))
  ∧ (∀ r, lowerTag (heap (document st')) r = lowerTag (heap (document st)) r)
  ∧ (∀ r n, attrKey n ≠ attrKey SELECTED →
            attrKey n ≠ attrKey CONTENT_EDITABLE →
            getAttribute (heap (document st')) r n =
            getAttribute (heap (document st)) r n).

(** ** Sample documents *)

(** [<div data-editor-id="el-1">hi</div><p></p>] *)
Definition importedHeap : gmap ref Element :=
  <[0 := mkElement "HTML" ∅ ∅]>
  (<[1 := mkElement "HEAD" ∅ ∅]>
  (<[2 := mkElement "BODY" ∅ ∅]>
  (<[3 := mkElement "DIV" {[ "data-editor-id" := "el-1" ]} ∅]>
  (<[4 := mkElement "P" ∅ ∅]> ∅)))).

Definition sampleTree : Node :=
  ElementNode 0
    [ ElementNode 1 [];
      ElementNode 2 [ElementNode 3 [TextNode "hi"]; ElementNode 4 []] ].

Definition importedDoc : Document := mkDocument importedHeap sampleTree.

(** The same after tagging. *)
Definition importedTagged : Document :=
  mkDocument
    (<[4 := mkElement "P" {[ "data-editor-id" := "el-1" ]} ∅]> importedHeap)
    sampleTree.

Definition sampleBody : Node :=
  ElementNode 2 [ElementNode 3 [TextNode "hi"]; ElementNode 4 []].

(** [<div data-editor-id="hero">hi</div><p data-editor-id="hero"></p>]:
    markup in which a block was copied together with its identifier. *)
Definition copiedDoc : Document :=
  mkDocument
    (<[3 := mkElement "DIV" {[ "data-editor-id" := "hero" ]} ∅]>
     (<[4 := mkElement "P" {[ "data-editor-id" := "hero" ]} ∅]> importedHeap))
    sampleTree.

(** [<div data-editor-id="hero">hi</div><p></p>] *)
Definition heroHeap : gmap ref Element :=
  <[3 := mkElement "DIV" {[ "data-editor-id" := "hero" ]} ∅]> importedHeap.

Definition heroDoc : Document := mkDocument heroHeap sampleTree.

(** [<div data-editor-id="hero">hi</div><p data-editor-id="el-1"></p>
    <img data-editor-id="el-2">], every element wired once. *)
Definition pageHeap : gmap ref Element :=
  <[0 := mkElement "HTML" ∅ ∅]>
  (<[1 := mkElement "HEAD" ∅ ∅]>
  (<[2 := mkElement "BODY" ∅ ∅]>
  (<[3 := mkElement "DIV" {[ "data-editor-id" := "hero" ]} ∅]>
  (<[4 := mkElement "P" {[ "data-editor-id" := "el-1" ]} ∅]>
  (<[5 := mkElement "IMG" {[ "data-editor-id" := "el-2" ]} ∅]> ∅))))).

Definition pageTree : Node :=
  ElementNode 0
    [ ElementNode 1 [];
      ElementNode 2
        [ElementNode 3 [TextNode "hi"]; ElementNode 4 []; ElementNode 5 []] ].

Definition pageDoc : Document := mkDocument pageHeap pageTree.

Definition pageRuntime : Runtime :=
  mkRuntime pageDoc {[ 3 := 1; 4 := 1; 5 := 1 ]} [] [] 0.

(** A browser to run the samples in: every input parses to
    [<div>Hello</div><img>], the fragment [<b>Bold</b>] parses to a [b]
    element and any other fragment is read as text, and a selector with a
    stray quote is a [SyntaxError]. *)
Definition sampleParsed : ParsedDocument :=
  mkParsed (mkElement "HTML" ∅ ∅) (mkElement "HEAD" ∅ ∅) []
    (mkElement "BODY" ∅ ∅) false
    [ MElement (mkElement "DIV" ∅ ∅) [MText "Hello"];
      MElement (mkElement "IMG" ∅ ∅) [] ].

Definition sampleFragment (text : string) : list Markup :=
  if bool_decide (text = "<b>Bold</b>")
  then [MElement (mkElement "B" ∅ ∅) [MText "Bold"]]
  else [MText text].

Definition sampleBrowser : Browser :=
  mkBrowser (λ _, sampleParsed) (λ _ text, sampleFragment text)
    (λ _ _, "<html></html>") (λ _ _, QueryThrows) (λ n, pretty n).

Definition sampleHost : Host :=
  mkHost true "<div>Hello</div>" None None [] 0.

(** The frame's messages as the host receives them, each with a frame
    that cannot be read back. *)
Definition received (msgs : list ToHost) : list (ToHost * option string) :=
  (λ m, (m, None)) <$> msgs.

(** ** More predicates and host operations *)

(** The elements of a list that have no identifier yet, in order. *)
Definition untaggedOf (h : gmap ref Element) (els : list ref) : list ref :=
  filter (λ r, hasAttribute h r EDITOR_ID = false) els.

(** What one round of the loop of [makeInteractive] leaves on the heap,
    and the number of [Math.random] calls after it. *)
Definition wiredHeap (browser : Browser) (h : gmap ref Element) (el : ref)
    (k : nat) : gmap ref Element :=
  let h1 := if hasAttribute h el EDITOR_ID then h
            else setAttribute h el EDITOR_ID ("el-" +:+ random36 browser k) in
  if isImg h1 el then setAttribute h1 el "draggable" "false" else h1.

Definition drawsAfter (h : gmap ref Element) (el : ref) (k : nat) : nat :=
  if hasAttribute h el EDITOR_ID then k else S k.

(** An element the interactivity pass has nothing left to write to: it
    has an identifier, and [draggable=false] if it is an image. *)
Definition settled (h : gmap ref Element) (r : ref) : Prop :=
  hasAttribute h r EDITOR_ID = true
  ∧ (isImg h r = true → getAttribute h r "draggable" = Some "false").

(** What the click listener does to the attributes of one element:
    [inQuery] tells whether the element carries an identifier, [isThis]
    whether it is the clicked one, [image] whether the clicked one is an
    image. *)
Definition clickAttributes (inQuery isThis image : bool)
    (a : gmap string string) : gmap string string :=
  let a1 := if inQuery then delete (attrKey SELECTED) a else a in
  if isThis then
    let a2 := <[attrKey SELECTED := "true"]> a1 in
    if image then a2 else <[attrKey CONTENT_EDITABLE := "true"]> a2
  else a1.

(** [toggleFlexDirection(direction)] *)
Definition toggleFlexDirection (h : Host) (direction : string) : Host :=
  applyPropsToSelected h [("display", "flex"); ("flexDirection", direction)].

(** The identifier of the last [selection] message of a list, if there is
    one. *)
Definition lastSelection (msgs : list ToHost) : option (option string) :=
  foldl (λ acc m, match m with
                  | Selection id _ _ => Some id
                  | _ => acc
                  end) None msgs.

(** The selection info of the host describes its selected identifier. *)
Definition selectionAgrees (h : Host) : Prop :=
  match selectionInfo h with
  | Some info => infoId info = selectedId h
  | None => selectedId h = None
  end.

(** Between two heaps, an element keeps its identifier and its tag. *)
Definition keepsIdentity (h h' : gmap ref Element) : Prop :=
  ∀ r, (∀ v, getAttribute h r EDITOR_ID = Some v →
             getAttribute h' r EDITOR_ID = Some v)
       ∧ (∀ t, lowerTag h r = Some t → lowerTag h' r = Some t).

(** Between two states of the frame, nothing was taken back: the messages
    posted are still there, no element has fewer listeners, no random draw
    is free again. *)
Definition grows (st st' : Runtime) : Prop :=
  (∃ more, posted st' = posted st ++ more)
  ∧ (∀ r, default 0 (listeners st !! r) ≤ default 0 (listeners st' !! r))
  ∧ draws st ≤ draws st'.

(** ** More samples *)

Definition pageBody : Node :=
  ElementNode 2
    [ElementNode 3 [TextNode "hi"]; ElementNode 4 []; ElementNode 5 []].

(** A frame that has just loaded [importedDoc]: nothing is wired. *)
Definition importedRuntime : Runtime := mkRuntime importedDoc ∅ [] [] 0.

(** A frame on [copiedDoc], in which two elements share an identifier. *)
Definition copiedRuntime : Runtime := mkRuntime copiedDoc ∅ [] [] 0.

(** What bootstrapping the input of [sampleBrowser] gives. *)
Definition bootedDoc : Document :=
  mkDocument
    (<[0 := mkElement "HTML" ∅ ∅]>
     (<[1 := mkElement "HEAD" ∅ ∅]>
     (<[2 := mkElement "BODY" ∅ ∅]>
     (<[3 := mkElement "DIV" {[ "data-editor-id" := "el-1" ]} ∅]>
     (<[4 := mkElement "IMG" {[ "data-editor-id" := "el-2" ]} ∅]>
     (<[5 := mkElement "STYLE" ∅ ∅]>
     (<[6 := mkElement "SCRIPT" {[ "type" := "text/javascript" ]} ∅]>
        ∅)))))))
    (ElementNode 0
       [ ElementNode 1 [ElementNode 5 [TextNode STYLE_TEXT]];
         ElementNode 2
           [ ElementNode 3 [TextNode "Hello"]; ElementNode 4 [];
             ElementNode 6 [TextNode SCRIPT_TEXT] ] ]).

Definition bootedRuntime : Runtime := mkRuntime bootedDoc ∅ [] [] 0.

(** * Part II: the properties *)

(** ** Attribute reads and writes *)

Section AttributeFacts.
Implicit Types (h : gmap ref Element) (r el : ref) (n name v : string).

Lemma getAttribute_setAttribute h r el n name v :
  getAttribute (setAttribute h el name v) r n =
  if decide (r = el ∧ attrKey n = attrKey name)
  then (λ _, v) <$> h !! r
  else getAttribute h r n.
Proof.
  unfold getAttribute, setAttribute.
  destruct (decide (el = r)) as [->|Hne].
  - rewrite lookup_alter_eq. destruct (h !! r) as [e|]; simpl.
    + destruct (decide (attrKey n = attrKey name)) as [Hk|Hk].
      * rewrite decide_True by done. by rewrite Hk, lookup_insert_eq.
      * rewrite decide_False by tauto. by rewrite lookup_insert_ne.
    + by case_decide.
  - rewrite lookup_alter_ne by done. rewrite decide_False; [done|].
    intros [? _]. by apply Hne.
Qed.

Lemma getAttribute_removeAttribute h r el n name :
  getAttribute (removeAttribute h el name) r n =
  if decide (r = el ∧ attrKey n = attrKey name)
  then None
  else getAttribute h r n.
Proof.
  unfold getAttribute, removeAttribute.
  destruct (decide (el = r)) as [->|Hne].
  - rewrite lookup_alter_eq. destruct (h !! r) as [e|]; simpl.
    + destruct (decide (attrKey n = attrKey name)) as [Hk|Hk].
      * rewrite decide_True by done. by rewrite Hk, lookup_delete_eq.
      * rewrite decide_False by tauto. by rewrite lookup_delete_ne.
    + by case_decide.
  - rewrite lookup_alter_ne by done. rewrite decide_False; [done|].
    intros [? _]. by apply Hne.
Qed.

Lemma getAttribute_setStyle h r el n k v :
  getAttribute (setStyle h el k v) r n = getAttribute h r n.
Proof.
  unfold getAttribute, setStyle.
  destruct (decide (el = r)) as [->|Hne]; [|by rewrite lookup_alter_ne].
  rewrite lookup_alter_eq. by destruct (h !! r).
Qed.

Lemma hasAttribute_true h r n :
  hasAttribute h r n = true ↔ is_Some (getAttribute h r n).
Proof. unfold hasAttribute. by rewrite bool_decide_eq_true. Qed.

Lemma hasAttribute_false h r n :
  hasAttribute h r n = false ↔ getAttribute h r n = None.
Proof.
  unfold hasAttribute. rewrite bool_decide_eq_false.
  by rewrite eq_None_not_Some.
Qed.

Lemma getAttribute_unallocated h r n :
  h !! r = None → getAttribute h r n = None.
Proof. unfold getAttribute. by intros ->. Qed.

Lemma getAttribute_allocated h r n v :
  getAttribute h r n = Some v → is_Some (h !! r).
Proof. unfold getAttribute. destruct (h !! r); [by eexists|done]. Qed.

Lemma lowerTag_alter_attributes h r el f :
  lowerTag (alter (withAttributes f) el h) r = lowerTag h r.
Proof.
  unfold lowerTag.
  destruct (decide (el = r)) as [->|Hne]; [|by rewrite lookup_alter_ne].
  rewrite lookup_alter_eq. by destruct (h !! r).
Qed.

Lemma lowerTag_setAttribute h r el name v :
  lowerTag (setAttribute h el name v) r = lowerTag h r.
Proof. apply lowerTag_alter_attributes. Qed.

Lemma lowerTag_removeAttribute h r el name :
  lowerTag (removeAttribute h el name) r = lowerTag h r.
Proof. apply lowerTag_alter_attributes. Qed.

Lemma lowerTag_setStyle h r el k v :
  lowerTag (setStyle h el k v) r = lowerTag h r.
Proof.
  unfold lowerTag, setStyle.
  destruct (decide (el = r)) as [->|Hne]; [|by rewrite lookup_alter_ne].
  rewrite lookup_alter_eq. by destruct (h !! r).
Qed.

Lemma isImg_ext h h' r :
  lowerTag h' r = lowerTag h r → isImg h' r = isImg h r.
Proof. unfold isImg. by intros ->. Qed.

Lemma setAttribute_unallocated h el name v :
  h !! el = None → setAttribute h el name v = h.
Proof.
  intros Hn. apply map_eq. intros r. unfold setAttribute.
  destruct (decide (el = r)) as [->|Hne]; [|by rewrite lookup_alter_ne].
  by rewrite lookup_alter_eq, Hn.
Qed.

Lemma lookup_setAttribute_is_Some h r el name v :
  is_Some (setAttribute h el name v !! r) ↔ is_Some (h !! r).
Proof. unfold setAttribute. apply lookup_alter_is_Some. Qed.

Lemma lookup_removeAttribute_is_Some h r el name :
  is_Some (removeAttribute h el name !! r) ↔ is_Some (h !! r).
Proof. unfold removeAttribute. apply lookup_alter_is_Some. Qed.

Lemma lookup_setAttribute_ne h r el name v :
  r ≠ el → setAttribute h el name v !! r = h !! r.
Proof. intros Hne. unfold setAttribute. by rewrite lookup_alter_ne. Qed.

Lemma lookup_removeAttribute_ne h r el name :
  r ≠ el → removeAttribute h el name !! r = h !! r.
Proof. intros Hne. unfold removeAttribute. by rewrite lookup_alter_ne. Qed.

Lemma lookup_setStyle_ne h r el k v :
  r ≠ el → setStyle h el k v !! r = h !! r.
Proof. intros Hne. unfold setStyle. by rewrite lookup_alter_ne. Qed.


End AttributeFacts.

(** ** The tagger's loop *)

Section TaggerFacts.
Implicit Types (h : gmap ref Element) (r el : ref) (els : list ref).

Lemma tagLoop_allocated els c h r :
  is_Some (tagLoop els c h !! r) ↔ is_Some (h !! r).
Proof.
  revert c h. induction els as [|el els IH]; intros c h; simpl; [done|].
  destruct (hasAttribute h el EDITOR_ID); rewrite IH; [done|].
  apply lookup_setAttribute_is_Some.
Qed.

Lemma tagLoop_lowerTag els c h r :
  lowerTag (tagLoop els c h) r = lowerTag h r.
Proof.
  revert c h. induction els as [|el els IH]; intros c h; simpl; [done|].
  destruct (hasAttribute h el EDITOR_ID); rewrite IH; [done|].
  apply lowerTag_setAttribute.
Qed.

(** An identifier that is present is never written again. *)
Lemma tagLoop_keeps els c h r v :
  getAttribute h r EDITOR_ID = Some v →
  getAttribute (tagLoop els c h) r EDITOR_ID = Some v.
Proof.
  revert c h. induction els as [|el els IH]; intros c h Hv; simpl; [done|].
  destruct (hasAttribute h el EDITOR_ID) eqn:Hel; apply IH; [done|].
  rewrite getAttribute_setAttribute. rewrite decide_False; [done|].
  intros [-> _]. apply hasAttribute_false in Hel. congruence.
Qed.

(** Every allocated element the walker yields ends up tagged. *)
Lemma tagLoop_tags els c h el :
  el ∈ els → is_Some (h !! el) →
  is_Some (getAttribute (tagLoop els c h) el EDITOR_ID).
Proof.
  revert c h. induction els as [|x els IH]; intros c h Hin Hal.
  { by apply elem_of_nil in Hin. }
  simpl. destruct (hasAttribute h x EDITOR_ID) eqn:Hx.
  - apply elem_of_cons in Hin as [->|Hin]; [|by apply IH].
    apply hasAttribute_true in Hx as [v Hv].
    exists v. by apply tagLoop_keeps.
  - apply elem_of_cons in Hin as [->|Hin].
    + destruct Hal as [e He]. eexists. apply tagLoop_keeps.
      rewrite getAttribute_setAttribute, decide_True by done.
      by rewrite He.
    + apply IH; [done|]. by apply lookup_setAttribute_is_Some.
Qed.

(** On a heap where the walked elements are tagged the loop writes
    nothing. *)
Lemma tagLoop_fixed els c h :
  (∀ el, el ∈ els → is_Some (h !! el) →
         is_Some (getAttribute h el EDITOR_ID)) →
  tagLoop els c h = h.
Proof.
  revert c. induction els as [|x els IH]; intros c Hall; simpl; [done|].
  destruct (hasAttribute h x EDITOR_ID) eqn:Hx.
  - apply IH. intros el Hel. apply Hall. by right.
  - apply hasAttribute_false in Hx.
    assert (h !! x = None) as Hnone.
    { destruct (h !! x) eqn:E; [|done].
      destruct (Hall x) as [v Hv]; [by left|by eexists|congruence]. }
    rewrite setAttribute_unallocated by done.
    apply IH. intros el Hel. apply Hall. by right.
Qed.
End TaggerFacts.

(** [document.body] and [document.head] only read tag names. *)
Lemma rootChild_tag_ext (h h' : gmap ref Element) (n : Node) tags :
  (∀ r, lowerTag h' r = lowerTag h r) →
  rootChild (mkDocument h' n) tags = rootChild (mkDocument h n) tags.
Proof.
  intros Hext. unfold rootChild; simpl. destruct n as [r kids|]; [|done].
  rewrite Hext. case_bool_decide; [|done].
  induction kids as [|k kids IH]; simpl; [done|].
  rewrite IH. replace (childTagged h' tags k) with (childTagged h tags k);
    [done|].
  destruct k; simpl; [|done]. by rewrite Hext.
Qed.

(** C1.  On a document with a body, [attachEditorIds] returns; running it
    again on its result returns the very same document (heap and tree), so
    every element keeps the identifier it had after the first run; and an
    identifier attribute that was present before a run is still there,
    with the same value, after it. *)
Theorem attachEditorIds_idempotent (d : Document) (b : Node) :
  bodyOf d = Some b →
  ∃ d1, attachEditorIds d = Some d1
      ∧ attachEditorIds d1 = Some d1
      ∧ (∀ r v, getAttribute (heap d) r EDITOR_ID = Some v →
                getAttribute (heap d1) r EDITOR_ID = Some v).
Proof.
  intros Hb. unfold attachEditorIds. rewrite Hb; simpl.
  eexists; split; [done|]. split.
  - unfold bodyOf.
    rewrite (rootChild_tag_ext (heap d)) by (intros; apply tagLoop_lowerTag).
    destruct d as [h n]; simpl in *. unfold bodyOf in Hb. rewrite Hb; simpl.
    f_equal. f_equal. apply tagLoop_fixed.
    intros el Hel Hal. apply tagLoop_tags; [done|].
    by apply tagLoop_allocated in Hal.
  - intros r v. apply tagLoop_keeps.
Qed.

(** ** Uniqueness of the identifiers *)

Lemma untagged_cons_tagged h el els :
  hasAttribute h el EDITOR_ID = true → untagged h (el :: els) = untagged h els.
Proof.
  intros H. unfold untagged. rewrite filter_cons_False; [done|]. congruence.
Qed.

Lemma untagged_cons_untagged h el els :
  hasAttribute h el EDITOR_ID = false →
  untagged h (el :: els) = S (untagged h els).
Proof. intros H. unfold untagged. by rewrite filter_cons_True. Qed.

(** Tagging one more element leaves no more elements untagged. *)
Lemma untagged_setAttribute h el v els :
  untagged (setAttribute h el EDITOR_ID v) els ≤ untagged h els.
Proof.
  induction els as [|x els IH]; [done|].
  destruct (hasAttribute h x EDITOR_ID) eqn:Hx.
  - rewrite (untagged_cons_tagged h) by done.
    rewrite untagged_cons_tagged; [done|].
    apply hasAttribute_true in Hx as [w Hw]. apply hasAttribute_true.
    rewrite getAttribute_setAttribute. case_decide as Hd; [|by eexists].
    destruct Hd as [-> _].
    destruct (getAttribute_allocated _ _ _ _ Hw) as [e ->]. by eexists.
  - rewrite (untagged_cons_untagged h) by done.
    destruct (hasAttribute (setAttribute h el EDITOR_ID v) x EDITOR_ID) eqn:Hy.
    + rewrite untagged_cons_tagged by done. lia.
    + rewrite untagged_cons_untagged by done. lia.
Qed.

Lemma generated_identifier_inj (c k : nat) :
  "el-" +:+ pretty c = "el-" +:+ pretty k → c = k.
Proof. intros H. simpl in H. by simplify_eq. Qed.

(** The loop keeps the identifiers of [U] distinct as long as no
    identifier already in use is one of those it is about to hand out. *)
Lemma tagLoop_distinct (U els : list ref) c h :
  els ⊆ U →
  distinctIdentifiers h U →
  (∀ r k, r ∈ U → c ≤ k < c + untagged h els →
          getAttribute h r EDITOR_ID ≠ Some ("el-" +:+ pretty k)) →
  distinctIdentifiers (tagLoop els c h) U.
Proof.
  revert c h. induction els as [|el els IH]; intros c h Hsub Hd Hfree; [done|].
  simpl. destruct (hasAttribute h el EDITOR_ID) eqn:Hel.
  - apply IH; [set_solver|done|].
    intros r k Hr Hk. apply Hfree; [done|].
    by rewrite untagged_cons_tagged.
  - rewrite untagged_cons_untagged in Hfree by done.
    apply IH; [set_solver| |].
    + intros r1 r2 v Hr1 Hr2. rewrite !getAttribute_setAttribute.
      destruct (decide (r1 = el)) as [->|Hn1];
        destruct (decide (r2 = el)) as [->|Hn2]; [done|..].
      * rewrite decide_True by done. rewrite (decide_False (P := r2 = el ∧ _))
          by tauto.
        intros H1 H2. exfalso. apply (Hfree r2 c); [done|lia|].
        destruct (h !! el); simpl in H1; congruence.
      * rewrite (decide_False (P := r1 = el ∧ _)) by tauto.
        rewrite decide_True by done.
        intros H1 H2. exfalso. apply (Hfree r1 c); [done|lia|].
        destruct (h !! el); simpl in H2; congruence.
      * rewrite !decide_False by tauto. by apply Hd.
    + intros r k Hr Hk. rewrite getAttribute_setAttribute.
      pose proof (untagged_setAttribute h el ("el-" +:+ pretty c) els).
      case_decide as Hdec.
      * destruct (h !! r); simpl; [|done].
        intros Heq. apply (inj Some) in Heq.
        apply generated_identifier_inj in Heq. lia.
      * apply Hfree; [done|lia].
Qed.

(** C2, as the claim has it, fails, in two ways.  Tagging the imported
    markup [<div data-editor-id="el-1">hi</div><p></p>] gives the paragraph
    the identifier the division already carries.  And on
    [<div data-editor-id="hero">hi</div><p data-editor-id="hero"></p>]
    the run changes nothing, as it must, so the two elements go on sharing
    one identifier. *)
Lemma attachEditorIds_repeats_identifier :
  (bodyOf importedDoc = Some sampleBody
   ∧ attachEditorIds importedDoc = Some importedTagged
   ∧ getAttribute (heap importedTagged) 3 EDITOR_ID = Some "el-1"
   ∧ getAttribute (heap importedTagged) 4 EDITOR_ID = Some "el-1"
   ∧ ¬ distinctIdentifiers (heap importedTagged) (walk sampleBody))
  ∧ (bodyOf copiedDoc = Some sampleBody
     ∧ attachEditorIds copiedDoc = Some copiedDoc
     ∧ getAttribute (heap copiedDoc) 3 EDITOR_ID = Some "hero"
     ∧ getAttribute (heap copiedDoc) 4 EDITOR_ID = Some "hero"
     ∧ ¬ distinctIdentifiers (heap copiedDoc) (walk sampleBody)).
Proof.
  assert (getAttribute (heap importedTagged) 3 EDITOR_ID = Some "el-1") as H3
    by (vm_compute; reflexivity).
  assert (getAttribute (heap importedTagged) 4 EDITOR_ID = Some "el-1") as H4
    by (vm_compute; reflexivity).
  assert (getAttribute (heap copiedDoc) 3 EDITOR_ID = Some "hero") as C3
    by (vm_compute; reflexivity).
  assert (getAttribute (heap copiedDoc) 4 EDITOR_ID = Some "hero") as C4
    by (vm_compute; reflexivity).
  split.
  - split; [vm_compute; reflexivity|]. split; [vm_compute; reflexivity|].
    split; [exact H3|]. split; [exact H4|].
    intros Hd. specialize (Hd 3 4 "el-1").
    assert (3 = 4) as Heq; [|discriminate Heq].
    apply Hd; [simpl; constructor|simpl; do 2 constructor|exact H3|exact H4].
  - split; [vm_compute; reflexivity|]. split; [vm_compute; reflexivity|].
    split; [exact C3|]. split; [exact C4|].
    intros Hd. specialize (Hd 3 4 "hero").
    assert (3 = 4) as Heq; [|discriminate Heq].
    apply Hd; [simpl; constructor|simpl; do 2 constructor|exact C3|exact C4].
Qed.

(** C2, amended.  After [attachEditorIds] every element under the body
    carries an identifier.  The identifiers are pairwise distinct when
    those present before the run were and none of them is one of the
    values [el-1] ... [el-m] the run hands out, [m] being the number of
    elements it tags; in particular when there were none before. *)
Theorem attachEditorIds_tags_all (d : Document) (b : Node) :
  bodyOf d = Some b →
  allocated (heap d) (walk b) →
  ∃ d1, attachEditorIds d = Some d1
      ∧ (∀ r, r ∈ walk b → is_Some (getAttribute (heap d1) r EDITOR_ID))
      ∧ (distinctIdentifiers (heap d) (walk b) →
         (∀ r k, r ∈ walk b → 1 ≤ k ≤ untagged (heap d) (walk b) →
                 getAttribute (heap d) r EDITOR_ID
                 ≠ Some ("el-" +:+ pretty k)) →
         distinctIdentifiers (heap d1) (walk b)).
Proof.
  intros Hb Hal. unfold attachEditorIds. rewrite Hb; simpl.
  eexists; split; [done|]. simpl. split.
  - intros r Hr. apply tagLoop_tags; [done|].
    unfold allocated in Hal. rewrite Forall_forall in Hal. by apply Hal.
  - intros Hd Hfree. apply tagLoop_distinct; [done|done|].
    intros r k Hr Hk. apply Hfree; [done|lia].
Qed.

Lemma attachEditorIds_tags_all_witness :
  ∃ d1, attachEditorIds heroDoc = Some d1
      ∧ (∀ r, r ∈ walk sampleBody →
              is_Some (getAttribute (heap d1) r EDITOR_ID))
      ∧ distinctIdentifiers (heap d1) (walk sampleBody).
Proof.
  destruct (attachEditorIds_tags_all heroDoc sampleBody)
    as (d1 & Hrun & Htagged & Hdistinct).
  - vm_compute; reflexivity.
  - unfold allocated. simpl.
    repeat (constructor; [vm_compute; eexists; reflexivity|]). constructor.
  - exists d1. split; [exact Hrun|]. split; [exact Htagged|].
    apply Hdistinct.
    + intros r1 r2 v Hr1 Hr2. simpl in Hr1, Hr2.
      repeat (apply elem_of_cons in Hr1 as [->|Hr1]);
        [| |by apply elem_of_nil in Hr1];
        repeat (apply elem_of_cons in Hr2 as [->|Hr2]);
        try (by apply elem_of_nil in Hr2); try done;
        vm_compute; congruence.
    + intros r k Hr Hk. simpl in Hr.
      assert (untagged (heap heroDoc) (walk sampleBody) = 1) as Hone
        by (vm_compute; reflexivity).
      rewrite Hone in Hk. assert (k = 1) as -> by lia.
      repeat (apply elem_of_cons in Hr as [->|Hr]);
        [| |by apply elem_of_nil in Hr]; vm_compute; congruence.
Defined.

Lemma attachEditorIds_idempotent_witness :
  ∃ d1, attachEditorIds importedDoc = Some d1
      ∧ attachEditorIds d1 = Some d1
      ∧ (∀ r v, getAttribute (heap importedDoc) r EDITOR_ID = Some v →
                getAttribute (heap d1) r EDITOR_ID = Some v).
Proof.
  apply (attachEditorIds_idempotent importedDoc sampleBody).
  vm_compute; reflexivity.
Defined.

(** ** Creating nodes leaves the objects that exist alone *)

Lemma Markup_nested_ind (P : Markup → Prop) :
  (∀ s, P (MText s)) →
  (∀ e kids, Forall P kids → P (MElement e kids)) →
  ∀ m, P m.
Proof.
  intros Htext Helem. fix IH 1. intros [e kids|s]; [|apply Htext].
  apply Helem. induction kids as [|k kids IHk]; constructor; [apply IH|done].
Qed.

Lemma Node_nested_ind (P : Node → Prop) :
  (∀ s, P (TextNode s)) →
  (∀ r kids, Forall P kids → P (ElementNode r kids)) →
  ∀ n, P n.
Proof.
  intros Htext Helem. fix IH 1. intros [r kids|s]; [|apply Htext].
  apply Helem. induction kids as [|k kids IHk]; constructor; [apply IH|done].
Qed.

Lemma create_element e kids h :
  create (MElement e kids) h =
  let r := newRef h in
  let '(ks, h') := createAll kids (<[r := e]> h) in
  (ElementNode r ks, h').
Proof. reflexivity. Qed.

Lemma newRef_fresh (h : gmap ref Element) : h !! newRef h = None.
Proof.
  apply not_elem_of_dom. unfold newRef. apply is_fresh.
Qed.

Lemma create_frame m : ∀ h r e,
  h !! r = Some e → (create m h).2 !! r = Some e.
Proof.
  induction m as [s|e' kids IH] using Markup_nested_ind; intros h r e Hr;
    [done|].
  rewrite create_element. simpl.
  assert (<[newRef h := e']> h !! r = Some e) as Hr'.
  { rewrite lookup_insert_ne; [done|]. intros Heq.
    pose proof (newRef_fresh h). congruence. }
  revert Hr'. generalize (<[newRef h := e']> h). clear Hr.
  induction IH as [|k kids Hk _ IHkids]; intros h' Hr'; simpl; [done|].
  destruct (create k h') as [n h1] eqn:E1.
  specialize (Hk h' r e Hr'). rewrite E1 in Hk. simpl in Hk.
  specialize (IHkids h1 Hk).
  destruct (createAll kids h1) as [ns h2]. simpl in *. done.
Qed.

Lemma createAll_frame ms : ∀ h r e,
  h !! r = Some e → (createAll ms h).2 !! r = Some e.
Proof.
  induction ms as [|m ms IH]; intros h r e Hr; simpl; [done|].
  destruct (create m h) as [n h1] eqn:E1.
  pose proof (create_frame m h r e Hr) as H1. rewrite E1 in H1.
  specialize (IH h1 r e H1).
  destruct (createAll ms h1) as [ns h2]. done.
Qed.

Lemma create_fresh m : ∀ h r,
  r ∈ elementsOf (create m h).1 → h !! r = None.
Proof.
  induction m as [s|e kids IH] using Markup_nested_ind; intros h r.
  { simpl. by intros ?%elem_of_nil. }
  rewrite create_element. simpl.
  destruct (createAll kids (<[newRef h := e]> h)) as [ks h'] eqn:E. simpl.
  intros [->|Hin]%elem_of_cons; [apply newRef_fresh|].
  assert (∀ h0, (∀ x, h0 !! x = None → h !! x = None) →
            r ∈ flat_map elementsOf (createAll kids h0).1 → h !! r = None)
    as Hall.
  { clear E Hin. induction IH as [|k kids Hk _ IHkids]; intros h0 Hsub; simpl.
    { by intros ?%elem_of_nil. }
    destruct (create k h0) as [n h1] eqn:E1.
    destruct (createAll kids h1) as [ns h2] eqn:E2. simpl.
    rewrite elem_of_app. intros [Hr|Hr].
    - apply Hsub. apply Hk. by rewrite E1.
    - apply (IHkids h1); [|by rewrite E2].
      intros x Hx. apply Hsub.
      destruct (h0 !! x) as [e0|] eqn:E0; [|done].
      pose proof (create_frame k h0 x e0 E0) as Hf. rewrite E1 in Hf.
      simpl in Hf. congruence. }
  apply (Hall (<[newRef h := e]> h)); [|by rewrite E].
  intros x Hx. apply lookup_insert_None in Hx. tauto.
Qed.

Lemma createAll_fresh ms : ∀ h r,
  r ∈ flat_map elementsOf (createAll ms h).1 → h !! r = None.
Proof.
  induction ms as [|m ms IH]; intros h r; simpl.
  { by intros ?%elem_of_nil. }
  destruct (create m h) as [n h1] eqn:E1.
  destruct (createAll ms h1) as [ns h2] eqn:E2. simpl.
  rewrite elem_of_app. intros [Hr|Hr].
  - apply (create_fresh m). by rewrite E1.
  - specialize (IH h1 r). rewrite E2 in IH. specialize (IH Hr).
    destruct (h !! r) as [e0|] eqn:E0; [|done].
    pose proof (create_frame m h r e0 E0) as Hf. rewrite E1 in Hf.
    simpl in Hf. congruence.
Qed.

Lemma createAll_allocates_aux ms :
  Forall (λ m, ∀ h r, r ∈ elementsOf (create m h).1 →
                      is_Some ((create m h).2 !! r)) ms →
  ∀ h r, r ∈ flat_map elementsOf (createAll ms h).1 →
         is_Some ((createAll ms h).2 !! r).
Proof.
  induction 1 as [|m ms Hm _ IH]; intros h r; simpl.
  { by intros ?%elem_of_nil. }
  destruct (create m h) as [n h1] eqn:E1.
  destruct (createAll ms h1) as [ns h2] eqn:E2. simpl.
  rewrite elem_of_app. intros [Hr|Hr].
  - specialize (Hm h r). rewrite E1 in Hm. destruct (Hm Hr) as [e0 He0].
    pose proof (createAll_frame ms h1 r e0 He0) as Hf. rewrite E2 in Hf.
    by eexists.
  - specialize (IH h1 r). rewrite E2 in IH. by apply IH.
Qed.

Lemma create_allocates m : ∀ h r,
  r ∈ elementsOf (create m h).1 → is_Some ((create m h).2 !! r).
Proof.
  induction m as [s|e kids IH] using Markup_nested_ind; intros h r.
  { simpl. by intros ?%elem_of_nil. }
  rewrite create_element. simpl.
  pose proof (createAll_allocates_aux kids IH (<[newRef h := e]> h) r) as Hk.
  pose proof (createAll_frame kids (<[newRef h := e]> h) (newRef h) e) as Hf.
  destruct (createAll kids (<[newRef h := e]> h)) as [ks h'] eqn:E. simpl in *.
  intros [->|Hin]%elem_of_cons; [|by apply Hk].
  rewrite Hf; [by eexists|]. by rewrite lookup_insert_eq.
Qed.

Lemma createAll_allocates ms h r :
  r ∈ flat_map elementsOf (createAll ms h).1 →
  is_Some ((createAll ms h).2 !! r).
Proof.
  apply createAll_allocates_aux. apply Forall_forall.
  intros m _. apply create_allocates.
Qed.

(** ** Looking up and rewriting a child list *)

Lemma findNode_element r r' kids :
  findNode r (ElementNode r' kids) =
  if decide (r' = r) then Some (ElementNode r' kids) else findAmong r kids.
Proof. reflexivity. Qed.

Lemma updateChildren_absent el f n :
  el ∉ elementsOf n → updateChildren el f n = n ∧ findNode el n = None.
Proof.
  induction n as [s|r kids IH] using Node_nested_ind; [done|].
  intros Hnot. rewrite findNode_element. simpl in *.
  rewrite not_elem_of_cons in Hnot. destruct Hnot as [Hne Hkids].
  rewrite !decide_False by done.
  assert (map (updateChildren el f) kids = kids ∧ findAmong el kids = None)
    as [-> ->]; [|done].
  induction IH as [|k kids Hk _ IHkids]; [done|]. simpl in *.
  rewrite elem_of_app in Hkids.
  destruct Hk as [-> ->]; [tauto|]. destruct IHkids as [-> ->]; [tauto|done].
Qed.



Lemma elementsOf_appendChild_absent el child n :
  el ∉ elementsOf n → appendChild el child n = n.
Proof. intros H. by apply updateChildren_absent. Qed.



(** ** The [apply-props] command *)

Section ApplyProps.
Context (browser : Browser).
Implicit Types (st : Runtime) (d : Document) (el r : ref).

Lemma applyEntry_frame el d entry r e :
  r ≠ el → heap d !! r = Some e →
  heap (applyEntry browser el d entry) !! r = Some e.
Proof.
  intros Hne Hr. destruct entry as [k v]. unfold applyEntry.
  case_bool_decide.
  - unfold setInnerHTML. destruct (heap d !! el) as [e'|]; [|done].
    pose proof (createAll_frame (fragment browser e' v) (heap d) r e Hr) as Hf.
    by destruct (createAll (fragment browser e' v) (heap d)).
  - destruct (bool_decide (k = "src") && isImg (heap d) el); simpl.
    + by rewrite lookup_setAttribute_ne.
    + by rewrite lookup_setStyle_ne.
Qed.

Lemma applyEntries_frame el entries : ∀ d r e,
  r ≠ el → heap d !! r = Some e →
  heap (foldl (applyEntry browser el) d entries) !! r = Some e.
Proof.
  induction entries as [|entry entries IH]; intros d r e Hne Hr; [done|].
  simpl. apply IH; [done|]. by apply applyEntry_frame.
Qed.



(** A selector-safe identifier that no element carries resolves to
    [null]. *)
Lemma querySelectorById_no_match d id :
  selectorSafe id = true →
  (∀ r, r ∈ allElements d → getAttribute (heap d) r EDITOR_ID ≠ Some id) →
  querySelectorById browser d id = QueryNull.
Proof.
  intros Hsafe Hno. unfold querySelectorById. rewrite Hsafe.
  destruct (List.find _ (allElements d)) as [el|] eqn:Hf; [|done].
  apply find_some in Hf as [Hin Hb]. apply bool_decide_eq_true in Hb.
  exfalso. eapply Hno; [|done]. by apply list_elem_of_In.
Qed.

(** The element a selector-safe identifier resolves to carries it, and is
    the first in document order to do so. *)
Lemma querySelectorById_found d id el :
  selectorSafe id = true →
  querySelectorById browser d id = QueryFound el →
  el ∈ allElements d ∧ getAttribute (heap d) el EDITOR_ID = Some id.
Proof.
  intros Hsafe. unfold querySelectorById. rewrite Hsafe.
  destruct (List.find _ (allElements d)) as [x|] eqn:Hf; [|done].
  intros [= ->]. apply find_some in Hf as [Hin Hb].
  apply bool_decide_eq_true in Hb. by apply list_elem_of_In in Hin.
Qed.

(** The element a selector-safe identifier resolves to is the first of
    the document, in document order, that carries it. *)
Lemma querySelectorById_unique d id A :
  selectorSafe id = true →
  A ∈ allElements d →
  getAttribute (heap d) A EDITOR_ID = Some id →
  (∀ r, r ∈ allElements d → getAttribute (heap d) r EDITOR_ID = Some id →
        r = A) →
  querySelectorById browser d id = QueryFound A.
Proof.
  intros Hsafe Hin Hid Huniq.
  destruct (querySelectorById browser d id) as [| |el] eqn:Hq.
  - unfold querySelectorById in Hq. rewrite Hsafe in Hq.
    by destruct (List.find _ (allElements d)).
  - unfold querySelectorById in Hq. rewrite Hsafe in Hq.
    destruct (List.find _ (allElements d)) eqn:Hf; [done|].
    apply list_elem_of_In in Hin.
    apply (find_none _ _ Hf) in Hin. by apply bool_decide_eq_false in Hin.
  - destruct (querySelectorById_found d id el Hsafe Hq) as [Hel Hel'].
    f_equal. by apply Huniq.
Qed.


(** C8.  A property change with no target does nothing and raises
    nothing.  On the host, [applyPropsToSelected] with no selected
    identifier (or an empty one) returns the host as it was: no message,
    no timer.  In the frame, an [apply-props] command whose identifier no
    element carries ends normally with the state it started from; so does
    any command for which the lookup returns [null], and one for which it
    throws is caught with the state untouched. *)
Theorem no_target_is_noop :
  (∀ (h : Host) props,
     selectedId h = None ∨ selectedId h = Some EmptyString →
     applyPropsToSelected h props = h)
  ∧ (∀ st id props,
       selectorSafe id = true →
       (∀ r, r ∈ allElements (document st) →
             getAttribute (heap (document st)) r EDITOR_ID ≠ Some id) →
       commandBody browser st (ApplyProps id props) = Normal st
       ∧ onMessage browser st (ApplyProps id props) = st)
  ∧ (∀ st id props,
       querySelectorById browser (document st) id = QueryNull
       ∨ querySelectorById browser (document st) id = QueryThrows →
       onMessage browser st (ApplyProps id props) = st).
Proof.
  split; [|split].
  - intros h props Hsel. unfold applyPropsToSelected.
    destruct Hsel as [-> | ->]; simpl; by rewrite orb_true_r.
  - intros st id props Hsafe Hno. unfold onMessage, commandBody.
    by rewrite querySelectorById_no_match.
  - intros st id props Hq. unfold onMessage, commandBody.
    by destruct Hq as [-> | ->].
Qed.
End ApplyProps.

(** ** Removing an attribute from a list of elements *)

Lemma getAttribute_removeFromAll name els : ∀ h r n,
  getAttribute (removeFromAll name els h) r n =
  if decide (r ∈ els ∧ attrKey n = attrKey name) then None
  else getAttribute h r n.
Proof.
  unfold removeFromAll.
  induction els as [|x els IH]; intros h r n; simpl; [done|].
  rewrite IH, getAttribute_removeAttribute.
  destruct (decide (attrKey n = attrKey name)) as [Hk|Hk].
  - destruct (decide (r ∈ els)) as [Hin|Hin].
    + rewrite !decide_True; [done|split; [by right|done]|done].
    + rewrite (decide_False (P := r ∈ els ∧ _)) by tauto.
      destruct (decide (r = x)) as [->|Hne].
      * rewrite !decide_True; [done|split; [by left|done]|done].
      * rewrite !decide_False; [done| |tauto].
        intros [[?|?]%elem_of_cons _]; done.
  - rewrite !decide_False by tauto. done.
Qed.

Lemma lookup_removeFromAll_is_Some name els : ∀ h r,
  is_Some (removeFromAll name els h !! r) ↔ is_Some (h !! r).
Proof.
  unfold removeFromAll.
  induction els as [|x els IH]; intros h r; simpl; [done|].
  rewrite IH. apply lookup_removeAttribute_is_Some.
Qed.

Lemma lowerTag_removeFromAll name els : ∀ h r,
  lowerTag (removeFromAll name els h) r = lowerTag h r.
Proof.
  unfold removeFromAll.
  induction els as [|x els IH]; intros h r; simpl; [done|].
  rewrite IH. apply lowerTag_removeAttribute.
Qed.

Lemma getStyle_removeFromAll name els : ∀ h r k,
  getStyle (removeFromAll name els h) r k = getStyle h r k.
Proof.
  unfold removeFromAll.
  induction els as [|x els IH]; intros h r k; simpl; [done|].
  rewrite IH. unfold getStyle, removeAttribute.
  destruct (decide (x = r)) as [->|Hne]; [|by rewrite lookup_alter_ne].
  rewrite lookup_alter_eq. by destruct (h !! r).
Qed.

Lemma elem_of_querySelectorAll name d r :
  r ∈ querySelectorAll name d ↔
  hasAttribute (heap d) r name = true ∧ r ∈ allElements d.
Proof. unfold querySelectorAll. by rewrite list_elem_of_filter. Qed.

(** The attribute names the runtime writes are different names. *)
Lemma key_selected_id : attrKey SELECTED ≠ attrKey EDITOR_ID.
Proof. vm_compute. discriminate. Qed.

Lemma key_editable_id : attrKey CONTENT_EDITABLE ≠ attrKey EDITOR_ID.
Proof. vm_compute. discriminate. Qed.

Lemma key_editable_selected : attrKey CONTENT_EDITABLE ≠ attrKey SELECTED.
Proof. vm_compute. discriminate. Qed.

Lemma key_draggable_editable : attrKey "draggable" ≠ attrKey CONTENT_EDITABLE.
Proof. vm_compute. discriminate. Qed.

Lemma key_src_editable : attrKey "src" ≠ attrKey CONTENT_EDITABLE.
Proof. vm_compute. discriminate. Qed.

(** ** The click listener *)

Section ClickListener.
Context (browser : Browser).
Implicit Types (st : Runtime) (this r : ref) (n : string).

Lemma onClick_root this st :
  root (document (onClick browser this st)) = root (document st).
Proof. reflexivity. Qed.

Lemma onClick_listeners this st :
  listeners (onClick browser this st) = listeners st.
Proof. reflexivity. Qed.

Lemma onClick_lowerTag this st r :
  lowerTag (heap (document (onClick browser this st))) r =
  lowerTag (heap (document st)) r.
Proof.
  unfold onClick; simpl.
  destruct (isImg _ this); rewrite ?lowerTag_setAttribute;
    by rewrite lowerTag_removeFromAll.
Qed.

Lemma onClick_isImg this st r :
  isImg (heap (document (onClick browser this st))) r =
  isImg (heap (document st)) r.
Proof. apply isImg_ext, onClick_lowerTag. Qed.

Lemma onClick_allocated this st r :
  is_Some (heap (document (onClick browser this st)) !! r) ↔
  is_Some (heap (document st) !! r).
Proof.
  unfold onClick; simpl.
  destruct (isImg _ this); rewrite ?lookup_setAttribute_is_Some;
    by rewrite lookup_removeFromAll_is_Some.
Qed.

(** Inside the listener [isImg] is read after two attribute writes; they
    do not change the tag. *)
Lemma onClick_guard this st :
  isImg (setAttribute
           (removeFromAll SELECTED (querySelectorAll EDITOR_ID (document st))
              (heap (document st))) this SELECTED "true") this =
  isImg (heap (document st)) this.
Proof.
  apply isImg_ext. by rewrite lowerTag_setAttribute, lowerTag_removeFromAll.
Qed.


Lemma onClick_contentEditable this st r :
  getAttribute (heap (document (onClick browser this st))) r CONTENT_EDITABLE =
  if decide (r = this ∧ isImg (heap (document st)) this = false)
  then (λ _, "true") <$> heap (document st) !! r
  else getAttribute (heap (document st)) r CONTENT_EDITABLE.
Proof.
  unfold onClick; simpl. rewrite onClick_guard.
  assert (∀ x, getAttribute
                 (setAttribute
                    (removeFromAll SELECTED
                       (querySelectorAll EDITOR_ID (document st))
                       (heap (document st))) this SELECTED "true") x
                 CONTENT_EDITABLE
               = getAttribute (heap (document st)) x CONTENT_EDITABLE) as Hsame.
  { intros x. rewrite getAttribute_setAttribute, decide_False.
    - rewrite getAttribute_removeFromAll, decide_False; [done|].
      intros [_ Hk]. by apply key_editable_selected in Hk.
    - intros [_ Hk]. by apply key_editable_selected in Hk. }
  destruct (isImg (heap (document st)) this) eqn:Himg.
  - rewrite decide_False; [apply Hsame|]. intros [_ ?]. done.
  - rewrite getAttribute_setAttribute.
    destruct (decide (r = this)) as [->|Hne].
    + rewrite !decide_True by done.
      destruct (heap (document st) !! this) as [e|] eqn:E.
      * assert (is_Some (heap (document st) !! this)) as Hs by by eexists.
        apply (lookup_setAttribute_is_Some _ _ this SELECTED "true") in Hs
          as Hs'.
        apply (lookup_removeFromAll_is_Some SELECTED
                 (querySelectorAll EDITOR_ID (document st))) in Hs.
        destruct Hs as [e' He'].
        unfold setAttribute at 1. rewrite lookup_alter_eq, He'. done.
      * assert (setAttribute (removeFromAll SELECTED
                  (querySelectorAll EDITOR_ID (document st))
                  (heap (document st))) this SELECTED "true" !! this = None)
          as ->; [|done].
        apply eq_None_not_Some. rewrite lookup_setAttribute_is_Some.
        rewrite lookup_removeFromAll_is_Some. rewrite E. by intros [? ?].
    + rewrite !decide_False by tauto. apply Hsame.
Qed.

(** The listener writes two attributes only. *)
Lemma onClick_other_attribute this st r n :
  attrKey n ≠ attrKey SELECTED → attrKey n ≠ attrKey CONTENT_EDITABLE →
  getAttribute (heap (document (onClick browser this st))) r n =
  getAttribute (heap (document st)) r n.
Proof.
  intros Hs Hc. unfold onClick; simpl. rewrite onClick_guard.
  assert (getAttribute
            (setAttribute
               (removeFromAll SELECTED
                  (querySelectorAll EDITOR_ID (document st))
                  (heap (document st))) this SELECTED "true") r n
          = getAttribute (heap (document st)) r n) as Hsame.
  { rewrite getAttribute_setAttribute, decide_False by tauto.
    by rewrite getAttribute_removeFromAll, decide_False by tauto. }
  destruct (isImg (heap (document st)) this); [done|].
  by rewrite getAttribute_setAttribute, decide_False by tauto.
Qed.

Lemma onClick_ranges this st :
  ranges (onClick browser this st) =
  if isImg (heap (document st)) this then ranges st else [this].
Proof. unfold onClick; simpl. by rewrite onClick_guard. Qed.

Lemma onClick_posted this st :
  ∃ tag outer,
    posted (onClick browser this st) =
    posted st ++
      [Selection (getAttribute (heap (document st)) this EDITOR_ID) tag outer].
Proof.
  pose proof (onClick_other_attribute this st this EDITOR_ID) as Hid.
  unfold onClick in *; simpl in *. do 2 eexists. f_equal. f_equal. f_equal.
  apply Hid; intros Hk; symmetry in Hk.
  - by apply key_selected_id in Hk.
  - by apply key_editable_id in Hk.
Qed.
End ClickListener.

(** ** Clicks *)

Section Clicks.
Context (browser : Browser).
Implicit Types (st : Runtime) (this r : ref) (n : string).

Lemma iter_onClick_invariant (P : Runtime → Prop) this k st :
  P st → (∀ s, P s → P (onClick browser this s)) →
  P (Nat.iter k (onClick browser this) st).
Proof. intros H0 Hstep. induction k as [|k IH]; simpl; auto. Qed.

Lemma sameFrame_refl st : sameFrame st st.
Proof. by repeat split. Qed.

Lemma sameFrame_onClick st s this :
  sameFrame st s → sameFrame st (onClick browser this s).
Proof.
  intros (Hr & Hl & Ha & Ht & Hg). repeat split.
  - by rewrite onClick_root.
  - by rewrite onClick_listeners.
  - rewrite onClick_allocated. apply Ha.
  - rewrite onClick_allocated. apply Ha.
  - intros r. by rewrite onClick_lowerTag.
  - intros r n H1 H2. by rewrite onClick_other_attribute, Hg.
Qed.

Lemma sameFrame_iter st this k :
  sameFrame st (Nat.iter k (onClick browser this) st).
Proof.
  apply (iter_onClick_invariant (sameFrame st)); [apply sameFrame_refl|].
  intros s. apply sameFrame_onClick.
Qed.

Lemma sameFrame_click st this : sameFrame st (click browser this st).
Proof. apply sameFrame_iter. Qed.


Lemma sameFrame_identifier st st' r :
  sameFrame st st' →
  getAttribute (heap (document st')) r EDITOR_ID =
  getAttribute (heap (document st)) r EDITOR_ID.
Proof.
  intros (_ & _ & _ & _ & Hg). apply Hg; intros Hk; symmetry in Hk.
  - by apply key_selected_id in Hk.
  - by apply key_editable_id in Hk.
Qed.


(** A wired element's click runs the listener at least once; the last
    run starts from a state with the same frame. *)
Lemma click_last_run st this :
  0 < default 0 (listeners st !! this) →
  ∃ s, sameFrame st s ∧ click browser this st = onClick browser this s.
Proof.
  intros Hl. unfold click.
  destruct (default 0 (listeners st !! this)) as [|k]; [lia|].
  exists (Nat.iter k (onClick browser this) st). split; [|done].
  apply sameFrame_iter.
Qed.






Lemma click_posted st this :
  clickable st this →
  ∃ earlier tag outer,
    posted (click browser this st) =
    earlier ++
      [Selection (getAttribute (heap (document st)) this EDITOR_ID) tag outer].
Proof.
  intros (_ & _ & _ & Hl).
  destruct (click_last_run st this Hl) as (s & Hsf & ->).
  destruct (onClick_posted browser this s) as (tag & outer & ->).
  rewrite (sameFrame_identifier st s this Hsf). by do 3 eexists.
Qed.

(** The host's last word on the selection is the last [selection]
    message it was handed. *)
Lemma deliver_selection_last (h : Host) inbox earlier id tag outer :
  inbox.*1 = earlier ++ [Selection id tag outer] →
  selectedId (deliver h inbox) = id.
Proof.
  intros Hin. apply fmap_app_inv in Hin as (l1 & l2 & _ & Hl2 & ->).
  destruct l2 as [|[m cur] [|? ?]]; simplify_eq/=.
  unfold deliver. by rewrite foldl_app.
Qed.

End Clicks.

(** ** Image and text elements under a click; clearing the selection *)

Section ClickEffects.
Context (browser : Browser).
Implicit Types (st : Runtime) (r : ref).

(** A click on an identifiable element that is not an image ends with
    [contentEditable] set and the text selection inside the element. *)
Lemma click_makes_editable st r :
  clickable st r →
  isImg (heap (document st)) r = false →
  getAttribute (heap (document (click browser r st))) r CONTENT_EDITABLE
    = Some "true"
  ∧ ranges (click browser r st) = [r].
Proof.
  intros (Hin & Hal & Hid & Hl) Himg.
  destruct (click_last_run browser st r Hl) as (s & Hsf & ->).
  destruct Hsf as (_ & _ & Ha & Ht & _).
  assert (isImg (heap (document s)) r = false) as Hi.
  { rewrite <-Himg. by apply isImg_ext. }
  rewrite onClick_contentEditable, onClick_ranges, Hi.
  rewrite decide_True by done. split; [|done].
  apply Ha in Hal as [e ->]. done.
Qed.

(** C6.  Clicking an identifiable element that is an image leaves its
    [contentEditable] attribute as it was (absent if it was absent) and
    leaves the text selection alone; clicking one that is not an image
    sets [contentEditable] to [true] on it and makes the text selection
    the one range that selects its contents. *)
Theorem click_image_vs_text st r :
  clickable st r →
  (isImg (heap (document st)) r = true →
     getAttribute (heap (document (click browser r st))) r CONTENT_EDITABLE
       = getAttribute (heap (document st)) r CONTENT_EDITABLE
     ∧ ranges (click browser r st) = ranges st)
  ∧ (isImg (heap (document st)) r = false →
     getAttribute (heap (document (click browser r st))) r CONTENT_EDITABLE
       = Some "true"
     ∧ ranges (click browser r st) = [r]).
Proof.
  intros Hc. split; intros Himg; [|by apply click_makes_editable].
  unfold click.
  apply (iter_onClick_invariant browser
           (λ s, isImg (heap (document s)) r = true
                 ∧ getAttribute (heap (document s)) r CONTENT_EDITABLE
                   = getAttribute (heap (document st)) r CONTENT_EDITABLE
                 ∧ ranges s = ranges st)); [done|].
  intros s (Hi & Hce & Hrg). rewrite onClick_isImg.
  split; [done|]. rewrite onClick_contentEditable, onClick_ranges, Hi.
  split; [|done]. rewrite decide_False; [done|]. intros [_ ?]. congruence.
Qed.

(** C7.  After the frame has handled [clear-selection] no element of the
    document has the [data-selected] attribute, so none is marked, and
    nothing was posted to the host.  On the host, [clearSelection] with
    the frame mounted empties the selected identifier and the selection
    info and posts the command. *)
Theorem clear_selection_clears :
  (∀ st,
     (∀ r, r ∈ allElements (document (onMessage browser st ClearSelection)) →
           hasAttribute (heap (document (onMessage browser st ClearSelection)))
             r SELECTED = false
           ∧ marked (onMessage browser st ClearSelection) r = false)
     ∧ posted (onMessage browser st ClearSelection) = posted st)
  ∧ (∀ h : Host,
       iframeMounted h = true →
       selectedId (clearSelection h) = None
       ∧ selectionInfo (clearSelection h) = None
       ∧ sent (clearSelection h) = sent h ++ [ClearSelection]).
Proof.
  split.
  - intros st. split; [|done]. intros r Hr. simpl in *.
    assert (hasAttribute
              (removeFromAll SELECTED (querySelectorAll SELECTED (document st))
                 (heap (document st))) r SELECTED = false) as Hno.
    { apply hasAttribute_false. rewrite getAttribute_removeFromAll.
      case_decide as Hd; [done|]. apply hasAttribute_false.
      destruct (hasAttribute (heap (document st)) r SELECTED) eqn:E; [|done].
      exfalso. apply Hd. split; [|done].
      by apply elem_of_querySelectorAll. }
    split; [done|]. unfold marked; simpl. rewrite Hno. apply andb_false_r.
  - intros h Hm. unfold clearSelection. by rewrite Hm.
Qed.
End ClickEffects.

(** ** What no event undoes *)

Section Stability.
Context (browser : Browser) (n : string) (V : string → Prop).
Hypothesis not_the_marker : attrKey n ≠ attrKey SELECTED.
Hypothesis editable_ok : attrKey n = attrKey CONTENT_EDITABLE → V "true".
Hypothesis identifier_ok : attrKey n = attrKey EDITOR_ID → ∀ w, V w.
Hypothesis draggable_ok : attrKey n = attrKey "draggable" → V "false".
Hypothesis src_ok : attrKey n = attrKey "src" → ∀ w, V w.

Lemma stable_refl h : stable n V h h.
Proof. intros r v Hv HV. eauto. Qed.

Lemma stable_trans h1 h2 h3 :
  stable n V h1 h2 → stable n V h2 h3 → stable n V h1 h3.
Proof.
  intros H12 H23 r v Hv HV.
  destruct (H12 r v Hv HV) as (v' & Hv' & HV'). eauto.
Qed.

Lemma stable_setAttribute h el name w :
  (attrKey n = attrKey name → V w) →
  stable n V h (setAttribute h el name w).
Proof.
  intros Hw r v Hv HV. rewrite getAttribute_setAttribute.
  case_decide as Hd; [|eauto]. destruct Hd as [-> Hk].
  destruct (getAttribute_allocated _ _ _ _ Hv) as [e ->]. simpl. eauto.
Qed.

Lemma stable_removeFromAll h els :
  stable n V h (removeFromAll SELECTED els h).
Proof.
  intros r v Hv HV. rewrite getAttribute_removeFromAll.
  rewrite decide_False by tauto. eauto.
Qed.

Lemma stable_setStyle h el k w : stable n V h (setStyle h el k w).
Proof. intros r v Hv HV. rewrite getAttribute_setStyle. eauto. Qed.

Lemma stable_createAll h ms : stable n V h (createAll ms h).2.
Proof.
  intros r v Hv HV. exists v. split; [|done].
  unfold getAttribute in *. destruct (h !! r) as [e|] eqn:E; [|done].
  by rewrite (createAll_frame ms h r e E).
Qed.

Lemma stable_onClick this st :
  stable n V (heap (document st)) (heap (document (onClick browser this st))).
Proof.
  unfold onClick; simpl.
  eapply stable_trans; [apply stable_removeFromAll|].
  eapply stable_trans.
  { apply stable_setAttribute. intros Hk. by apply not_the_marker in Hk. }
  destruct (isImg _ this); [apply stable_refl|].
  by apply stable_setAttribute.
Qed.

Lemma stable_click this st :
  stable n V (heap (document st)) (heap (document (click browser this st))).
Proof.
  unfold click.
  apply (iter_onClick_invariant browser
           (λ s, stable n V (heap (document st)) (heap (document s))));
    [apply stable_refl|].
  intros s Hs. eapply stable_trans; [done|]. apply stable_onClick.
Qed.

Lemma stable_applyEntry el d entry :
  stable n V (heap d) (heap (applyEntry browser el d entry)).
Proof.
  destruct entry as [k v]. unfold applyEntry. case_bool_decide.
  - unfold setInnerHTML. destruct (heap d !! el) as [e|]; [|apply stable_refl].
    pose proof (stable_createAll (heap d) (fragment browser e v)) as Hs.
    by destruct (createAll (fragment browser e v) (heap d)).
  - destruct (bool_decide (k = "src") && isImg (heap d) el); simpl.
    + apply stable_setAttribute. intros Hk. by apply src_ok.
    + apply stable_setStyle.
Qed.

Lemma stable_applyEntries el entries : ∀ d,
  stable n V (heap d) (heap (foldl (applyEntry browser el) d entries)).
Proof.
  induction entries as [|entry entries IH]; intros d; [apply stable_refl|].
  simpl. eapply stable_trans; [apply stable_applyEntry|apply IH].
Qed.

Lemma stable_onMessage st msg :
  stable n V (heap (document st)) (heap (document (onMessage browser st msg))).
Proof.
  unfold onMessage, commandBody. destruct msg as [id props| |].
  - destruct (querySelectorById browser (document st) id);
      [apply stable_refl..|].
    destruct props; [|apply stable_refl]. apply stable_applyEntries.
  - apply stable_removeFromAll.
  - apply stable_refl.
Qed.

Lemma stable_interactiveLoop els : ∀ h ls k,
  stable n V h (interactiveLoop browser els h ls k).1.1.
Proof.
  induction els as [|el els IH]; intros h ls k; [apply stable_refl|].
  simpl. destruct (hasAttribute h el EDITOR_ID).
  - eapply stable_trans; [|apply IH].
    destruct (isImg h el); [|apply stable_refl].
    apply stable_setAttribute. intros Hk. by apply draggable_ok.
  - eapply stable_trans; [|apply IH].
    eapply stable_trans.
    { apply stable_setAttribute. intros Hk. by apply identifier_ok. }
    destruct (isImg _ el); [|apply stable_refl].
    apply stable_setAttribute. intros Hk. by apply draggable_ok.
Qed.

Lemma stable_makeInteractive st :
  stable n V (heap (document st))
    (heap (document (makeInteractive browser st))).
Proof.
  unfold makeInteractive. destruct (bodyOf (document st)) as [b|];
    [|apply stable_refl].
  pose proof (stable_interactiveLoop (walk b) (heap (document st))
                (listeners st) (draws st)) as Hs.
  by destruct (interactiveLoop browser (walk b) (heap (document st))
                 (listeners st) (draws st)) as [[h ls] k].
Qed.

Lemma stable_onInput target st :
  stable n V (heap (document st))
    (heap (document (onInput browser target st))).
Proof.
  unfold onInput. destruct (getAttribute _ target EDITOR_ID) as [id|];
    [|apply stable_refl].
  destruct (truthy (Some id)); apply stable_refl.
Qed.

Lemma stable_step st ev :
  stable n V (heap (document st)) (heap (document (step browser st ev))).
Proof.
  destruct ev; simpl.
  - apply stable_click.
  - apply stable_onMessage.
  - apply stable_makeInteractive.
  - apply stable_onInput.
Qed.

Lemma stable_run evs : ∀ st,
  stable n V (heap (document st)) (heap (document (run browser st evs))).
Proof.
  induction evs as [|ev evs IH]; intros st; [apply stable_refl|].
  simpl. eapply stable_trans; [apply stable_step|apply IH].
Qed.
End Stability.

(** C10.  Once a click has set [contentEditable] to [true] on an element
    that is not an image, it stays [true] on that element whatever the
    frame handles afterwards: clicks on any element, [clear-selection] and
    [apply-props] commands, the re-wiring pass and input events.  And
    whatever the events, an attribute other than [data-selected] that an
    element has is never taken away from it. *)
Theorem contentEditable_persists browser st r evs :
  clickable st r →
  isImg (heap (document st)) r = false →
  getAttribute (heap (document (run browser (click browser r st) evs))) r
    CONTENT_EDITABLE = Some "true"
  ∧ (∀ st0 evs0 r0 n,
       attrKey n ≠ attrKey SELECTED →
       is_Some (getAttribute (heap (document st0)) r0 n) →
       is_Some (getAttribute (heap (document (run browser st0 evs0))) r0 n)).
Proof.
  intros Hc Himg. split.
  - destruct (click_makes_editable browser st r Hc Himg) as [Hce _].
    destruct (stable_run browser CONTENT_EDITABLE (λ v, v = "true")
                key_editable_selected) with
        (evs := evs) (st := click browser r st) (r := r) (v := "true")
      as (v' & Hv' & ->);
      first [done | intros Hk; vm_compute in Hk; discriminate Hk].
  - intros st0 evs0 r0 n Hn [v Hv].
    destruct (stable_run browser n (λ _, True) Hn) with
        (evs := evs0) (st := st0) (r := r0) (v := v) as (v' & Hv' & _);
      first [done | by eexists].
Qed.

(** ** The bootstrapper *)

Lemma getAttribute_insert_ne (h : gmap ref Element) r r' e n :
  r ≠ r' → getAttribute (<[r' := e]> h) r n = getAttribute h r n.
Proof. intros Hne. unfold getAttribute. by rewrite lookup_insert_ne. Qed.

Lemma lowerTag_insert_ne (h : gmap ref Element) r r' e :
  r ≠ r' → lowerTag (<[r' := e]> h) r = lowerTag h r.
Proof. intros Hne. unfold lowerTag. by rewrite lookup_insert_ne. Qed.

Lemma lowerTag_allocated (h : gmap ref Element) r t :
  lowerTag h r = Some t → is_Some (h !! r).
Proof. unfold lowerTag. destruct (h !! r); [by eexists|done]. Qed.

Lemma newRef_ne (h : gmap ref Element) r :
  is_Some (h !! r) → r ≠ newRef h.
Proof. intros [e He] ->. by rewrite newRef_fresh in He. Qed.

Lemma map_updateChildren_absent el f ks :
  el ∉ flat_map elementsOf ks → map (updateChildren el f) ks = ks.
Proof.
  induction ks as [|k ks IH]; [done|]. simpl.
  rewrite elem_of_app. intros Hnot.
  destruct (updateChildren_absent el f k) as [-> _]; [tauto|].
  rewrite IH; [done|tauto].
Qed.

(** [el.innerHTML = text] on a [script] or a [style] element: one text
    node. *)
Lemma detached_raw_text browser (h : gmap ref Element) el e text :
  h !! el = Some e →
  toLowerCase (tagName e) ∈ ["script"; "style"] →
  text ≠ EmptyString →
  detachedWithHTML browser el text h = (ElementNode el [TextNode text], h).
Proof.
  intros He Htag Htext. unfold detachedWithHTML, fragment. rewrite He.
  rewrite bool_decide_eq_true_2 by done.
  by rewrite bool_decide_eq_false_2 by done.
Qed.

(** On a document of the parser's shape [document.head] and
    [document.body] are the two children of the root. *)
Lemma rootChild_standard (h : gmap ref Element) hk bk :
  lowerTag h 0 = Some "html" →
  lowerTag h 1 = Some "head" →
  (lowerTag h 2 = Some "body" ∨ lowerTag h 2 = Some "frameset") →
  headOf (mkDocument h (ElementNode 0 [ElementNode 1 hk; ElementNode 2 bk]))
    = Some (ElementNode 1 hk)
  ∧ bodyOf (mkDocument h (ElementNode 0 [ElementNode 1 hk; ElementNode 2 bk]))
    = Some (ElementNode 2 bk).
Proof.
  intros H0 H1 H2. unfold headOf, bodyOf, rootChild. simpl.
  rewrite H0, H1. rewrite bool_decide_eq_true_2 by done. simpl.
  split; [done|]. by destruct H2 as [-> | ->].
Qed.

(** The parsed document has the parser's shape, its content is made of
    new objects, and all of them are on the heap. *)
Lemma load_standard (p : ParsedDocument) :
  ∃ h hk bk,
    load p = mkDocument h (ElementNode 0 [ElementNode 1 hk; ElementNode 2 bk])
    ∧ lowerTag h 0 = Some "html"
    ∧ lowerTag h 1 = Some "head"
    ∧ (lowerTag h 2 = Some "body" ∨ lowerTag h 2 = Some "frameset")
    ∧ (1 ∉ flat_map elementsOf bk)
    ∧ (2 ∉ flat_map elementsOf hk)
    ∧ allocated h (flat_map elementsOf bk).
Proof.
  unfold load.
  set (h0 := <[0 := withTag "HTML" (pHtml p)]>
             (<[1 := withTag "HEAD" (pHead p)]>
             (<[2 := withTag (bodyTag p) (pBody p)]> (∅ : gmap ref Element)))).
  assert (h0 !! 0 = Some (withTag "HTML" (pHtml p))) as E0 by done.
  assert (h0 !! 1 = Some (withTag "HEAD" (pHead p))) as E1 by done.
  assert (h0 !! 2 = Some (withTag (bodyTag p) (pBody p))) as E2 by done.
  clearbody h0.
  pose proof (createAll_frame (pHeadNodes p) h0) as Hf1.
  pose proof (createAll_fresh (pHeadNodes p) h0) as Hn1.
  destruct (createAll (pHeadNodes p) h0) as [hk h1]. simpl in *.
  pose proof (createAll_frame (pBodyNodes p) h1) as Hf2.
  pose proof (createAll_fresh (pBodyNodes p) h1) as Hn2.
  pose proof (createAll_allocates (pBodyNodes p) h1) as Ha2.
  destruct (createAll (pBodyNodes p) h1) as [bk h2]. simpl in *.
  exists h2, hk, bk. split; [done|].
  unfold lowerTag.
  rewrite (Hf2 0 _ (Hf1 0 _ E0)), (Hf2 1 _ (Hf1 1 _ E1)),
    (Hf2 2 _ (Hf1 2 _ E2)). simpl.
  split; [done|]. split; [done|]. split.
  { unfold bodyTag. destruct (pFrameset p); [by right|by left]. }
  split; [|split].
  - intros Hin. apply Hn2 in Hin. rewrite (Hf1 1 _ E1) in Hin. done.
  - intros Hin. apply Hn1 in Hin. congruence.
  - unfold allocated. apply Forall_forall. intros r Hr. by apply Ha2.
Qed.

Lemma STYLE_TEXT_nonempty : STYLE_TEXT ≠ EmptyString.
Proof. discriminate. Qed.

Lemma SCRIPT_TEXT_nonempty : SCRIPT_TEXT ≠ EmptyString.
Proof. discriminate. Qed.

Lemma createElement_style (h : gmap ref Element) :
  createElement h "style"
  = (newRef h, <[newRef h := mkElement "STYLE" ∅ ∅]> h).
Proof. reflexivity. Qed.

Lemma createElement_script (h : gmap ref Element) :
  createElement h "script"
  = (newRef h, <[newRef h := mkElement "SCRIPT" ∅ ∅]> h).
Proof. reflexivity. Qed.

Lemma appendChild_head child hk bk :
  1 ∉ flat_map elementsOf bk →
  appendChild 1 child (ElementNode 0 [ElementNode 1 hk; ElementNode 2 bk])
  = ElementNode 0 [ElementNode 1 (hk ++ [child]); ElementNode 2 bk].
Proof.
  intros Hb. unfold appendChild. simpl.
  by rewrite map_updateChildren_absent.
Qed.

Lemma appendChild_body child hk bk :
  2 ∉ flat_map elementsOf hk →
  appendChild 2 child (ElementNode 0 [ElementNode 1 hk; ElementNode 2 bk])
  = ElementNode 0 [ElementNode 1 hk; ElementNode 2 (bk ++ [child])].
Proof.
  intros Hh. unfold appendChild. simpl.
  by rewrite map_updateChildren_absent.
Qed.

(** The steps of [buildIframeContents] after the parse, on a document of
    the parser's shape. *)
Lemma injectInto_standard browser (h : gmap ref Element) hk bk :
  lowerTag h 0 = Some "html" →
  lowerTag h 1 = Some "head" →
  (lowerTag h 2 = Some "body" ∨ lowerTag h 2 = Some "frameset") →
  1 ∉ flat_map elementsOf bk →
  2 ∉ flat_map elementsOf hk →
  allocated h (flat_map elementsOf bk) →
  ∃ h' styleEl scriptEl,
    injectInto browser
      (mkDocument h (ElementNode 0 [ElementNode 1 hk; ElementNode 2 bk]))
    = Some (mkDocument h'
              (ElementNode 0
                 [ ElementNode 1
                     (hk ++ [ElementNode styleEl [TextNode STYLE_TEXT]]);
                   ElementNode 2
                     (bk ++ [ElementNode scriptEl [TextNode SCRIPT_TEXT]]) ]))
    ∧ h !! styleEl = None ∧ h !! scriptEl = None ∧ styleEl ≠ scriptEl
    ∧ h' !! styleEl = Some (mkElement "STYLE" ∅ ∅)
    ∧ h' !! scriptEl
      = Some (mkElement "SCRIPT" {[ "type" := "text/javascript" ]} ∅)
    ∧ (∀ r, r ∈ flat_map elementsOf bk →
            is_Some (getAttribute h' r EDITOR_ID))
    ∧ (∀ r n v, getAttribute h r n = Some v →
                attrKey n ≠ attrKey EDITOR_ID ∨ r ∉ flat_map elementsOf bk →
                getAttribute h' r n = Some v)
    ∧ (∀ r v, getAttribute h r EDITOR_ID = Some v →
              getAttribute h' r EDITOR_ID = Some v)
    ∧ (∀ r t, lowerTag h r = Some t → lowerTag h' r = Some t).
Proof.
  intros H0 H1 H2 Hb1 Hh2 Hal.
  destruct (rootChild_standard h hk bk H0 H1 H2) as [_ Hbody].
  unfold injectInto, attachEditorIds. rewrite Hbody.
  cbn [mbind option_bind heap root walk].
  set (h3 := tagLoop (flat_map elementsOf bk) 1 h).
  assert (∀ r, lowerTag h3 r = lowerTag h r) as Ht3
    by (intros; apply tagLoop_lowerTag).
  assert (∀ r, is_Some (h3 !! r) ↔ is_Some (h !! r)) as Ha3
    by (intros; apply tagLoop_allocated).
  rewrite createElement_style.
  set (rs := newRef h3).
  set (h4 := <[rs := mkElement "STYLE" ∅ ∅]> h3).
  assert (h3 !! rs = None) as Hrs by apply newRef_fresh.
  assert (∀ r, is_Some (h3 !! r) → r ≠ rs) as Hne_rs
    by (intros r Hr; by apply newRef_ne).
  assert (∀ i t, lowerTag h i = Some t → lowerTag h4 i = Some t) as Ht4.
  { intros i t Hi. unfold h4. rewrite lowerTag_insert_ne, Ht3; [done|].
    apply Hne_rs, Ha3. by eapply lowerTag_allocated. }
  rewrite (detached_raw_text browser h4 rs (mkElement "STYLE" ∅ ∅));
    [|by unfold h4; rewrite lookup_insert_eq
      |by (apply list_elem_of_In; right; left)
      |apply STYLE_TEXT_nonempty].
  destruct (rootChild_standard h4 hk bk) as [Hhead _];
    [by apply Ht4|by apply Ht4|destruct H2; [left|right]; by apply Ht4|].
  rewrite Hhead. cbn [mbind option_bind nodeRef].
  rewrite appendChild_head by done.
  rewrite createElement_script.
  set (rc := newRef h4).
  set (h6 := <[rc := mkElement "SCRIPT" ∅ ∅]> h4).
  set (h7 := setAttribute h6 rc "type" "text/javascript").
  assert (h4 !! rc = None) as Hrc by apply newRef_fresh.
  assert (∀ r, is_Some (h4 !! r) → r ≠ rc) as Hne_rc
    by (intros r Hr; by apply newRef_ne).
  assert (rs ≠ rc) as Hsc.
  { apply Hne_rc. unfold h4. rewrite lookup_insert_eq. by eexists. }
  assert (h7 !! rc
          = Some (mkElement "SCRIPT" {[ "type" := "text/javascript" ]} ∅))
    as E7.
  { unfold h7, h6, setAttribute. by rewrite lookup_alter_eq, lookup_insert_eq. }
  assert (∀ r, r ≠ rc → h7 !! r = h4 !! r) as E7'.
  { intros r Hr. unfold h7, h6.
    by rewrite lookup_setAttribute_ne, lookup_insert_ne. }
  assert (∀ i t, lowerTag h i = Some t → lowerTag h7 i = Some t) as Ht7.
  { intros i t Hi. pose proof (Ht4 i t Hi) as Hi4.
    unfold lowerTag in *. rewrite E7'; [done|].
    apply Hne_rc. destruct (h4 !! i); [by eexists|done]. }
  rewrite (detached_raw_text browser h7 rc _ _ E7);
    [|by (apply list_elem_of_In; left)|apply SCRIPT_TEXT_nonempty].
  destruct (rootChild_standard h7
              (hk ++ [ElementNode rs [TextNode STYLE_TEXT]]) bk) as [_ Hbody7];
    [by apply Ht7|by apply Ht7|destruct H2; [left|right]; by apply Ht7|].
  rewrite Hbody7. cbn [mbind option_bind nodeRef].
  assert (2 ≠ rs) as H2rs.
  { apply Hne_rs, Ha3. destruct H2 as [H2|H2]; by eapply lowerTag_allocated. }
  rewrite appendChild_body.
  2:{ rewrite flat_map_app. simpl. rewrite elem_of_app. intros [?|Hin]; [done|].
      apply elem_of_cons in Hin as [?|Hin]; [done|].
      by apply elem_of_nil in Hin. }
  exists h7, rs, rc. split; [done|].
  assert (∀ r, is_Some (h !! r) → h7 !! r = h3 !! r) as Hold.
  { intros r Hr. apply Ha3 in Hr. rewrite E7'.
    - unfold h4. rewrite lookup_insert_ne; [done|]. symmetry.
      intros ->. by apply Hne_rs in Hr.
    - apply Hne_rc. unfold h4. rewrite lookup_insert_ne; [done|].
      intros <-. by apply Hne_rs in Hr. }
  split; [|split; [|split; [done|split; [|split; [done|]]]]].
  - apply eq_None_not_Some. rewrite <-Ha3. by rewrite Hrs; intros [? ?].
  - apply eq_None_not_Some. intros Hs. apply Ha3 in Hs.
    assert (is_Some (h4 !! rc)) as [? ?]; [|congruence].
    unfold h4. rewrite lookup_insert_ne; [done|]. intros Heq. by apply Hsc.
  - rewrite E7' by done. unfold h4. by rewrite lookup_insert_eq.
  - split; [|split; [|split]].
    + intros r Hr. unfold allocated in Hal. rewrite Forall_forall in Hal.
      specialize (Hal r Hr).
      unfold getAttribute. rewrite (Hold r Hal).
      by apply tagLoop_tags.
    + intros r n v Hv Hor. pose proof (getAttribute_allocated _ _ _ _ Hv) as Hr.
      unfold getAttribute at 1. rewrite (Hold r Hr).
      fold (getAttribute h3 r n). unfold h3.
      clear -Hv Hor. revert Hv. generalize 1 at 1. generalize h.
      induction (flat_map elementsOf bk) as [|x els IH]; intros h0 c Hv;
        simpl; [done|].
      assert (attrKey n ≠ attrKey EDITOR_ID ∨ r ∉ els) as Hor'.
      { destruct Hor as [?|Hnot]; [by left|right].
        intros Hin. apply Hnot. by right. }
      destruct (hasAttribute h0 x EDITOR_ID); [by apply IH|].
      apply IH; [done|]. rewrite getAttribute_setAttribute.
      rewrite decide_False; [done|]. intros [-> Hk].
      destruct Hor as [?|Hnot]; [done|]. apply Hnot. by left.
    + intros r v Hv. pose proof (getAttribute_allocated _ _ _ _ Hv) as Hr.
      unfold getAttribute at 1. rewrite (Hold r Hr).
      by apply tagLoop_keeps.
    + intros r t Hr. by apply Ht7.
Qed.

(** C9.  Whatever the input text, [buildIframeContents] raises nothing
    and returns the doctype line followed by the serialisation of a
    document which is the parsed one with, in this order: every element
    under the body tagged (attributes the parser gave are kept, tags are
    kept), a [style] element holding [STYLE_TEXT] appended to the head,
    and a [script] element of type [text/javascript] holding
    [SCRIPT_TEXT] appended to the body. *)
Theorem buildIframeContents_total browser html :
  ∃ doc hk bk styleEl scriptEl,
    bootstrapDocument browser html = Some doc
    ∧ buildIframeContents browser html
      = Some ("<!doctype html>" +:+ newline
              +:+ serialize browser (heap doc) (root doc))
    ∧ root (load (parseFromString browser html))
      = ElementNode 0 [ElementNode 1 hk; ElementNode 2 bk]
    ∧ root doc
      = ElementNode 0
          [ ElementNode 1 (hk ++ [ElementNode styleEl [TextNode STYLE_TEXT]]);
            ElementNode 2
              (bk ++ [ElementNode scriptEl [TextNode SCRIPT_TEXT]]) ]
    ∧ heap (load (parseFromString browser html)) !! styleEl = None
    ∧ heap (load (parseFromString browser html)) !! scriptEl = None
    ∧ styleEl ≠ scriptEl
    ∧ heap doc !! styleEl = Some (mkElement "STYLE" ∅ ∅)
    ∧ heap doc !! scriptEl
      = Some (mkElement "SCRIPT" {[ "type" := "text/javascript" ]} ∅)
    ∧ (∀ r, r ∈ flat_map elementsOf bk →
            is_Some (getAttribute (heap doc) r EDITOR_ID))
    ∧ (∀ r n v,
         getAttribute (heap (load (parseFromString browser html))) r n
           = Some v →
         attrKey n ≠ attrKey EDITOR_ID ∨ r ∉ flat_map elementsOf bk →
         getAttribute (heap doc) r n = Some v)
    ∧ (∀ r v,
         getAttribute (heap (load (parseFromString browser html))) r EDITOR_ID
           = Some v →
         getAttribute (heap doc) r EDITOR_ID = Some v)
    ∧ (∀ r t,
         lowerTag (heap (load (parseFromString browser html))) r = Some t →
         lowerTag (heap doc) r = Some t).
Proof.
  unfold buildIframeContents, bootstrapDocument.
  destruct (load_standard (parseFromString browser html))
    as (h & hk & bk & -> & H0 & H1 & H2 & Hb1 & Hh2 & Hal).
  destruct (injectInto_standard browser h hk bk H0 H1 H2 Hb1 Hh2 Hal)
    as (h' & styleEl & scriptEl & -> & Hrest).
  exists (mkDocument h'
            (ElementNode 0
               [ ElementNode 1
                   (hk ++ [ElementNode styleEl [TextNode STYLE_TEXT]]);
                 ElementNode 2
                   (bk ++ [ElementNode scriptEl [TextNode SCRIPT_TEXT]]) ])),
    hk, bk, styleEl, scriptEl.
  split; [done|]. split; [done|]. split; [done|]. split; [done|].
  exact Hrest.
Qed.

(** ** The statements at the sample documents *)

Lemma received_messages msgs : (received msgs).*1 = msgs.
Proof.
  unfold received. induction msgs as [|m msgs IH]; [done|].
  rewrite !fmap_cons. simpl. by f_equal.
Qed.

Lemma pageRuntime_clickable r : r ∈ [3; 4; 5] → clickable pageRuntime r.
Proof.
  intros Hr. unfold clickable.
  repeat (apply elem_of_cons in Hr as [->|Hr]);
    [| | |by apply elem_of_nil in Hr];
    (split; [vm_compute; repeat constructor|]);
    (split; [vm_compute; by eexists|]);
    (split; [vm_compute; reflexivity|vm_compute; lia]).
Qed.



Lemma click_image_vs_text_witness :
  (isImg (heap (document pageRuntime)) 5 = true →
     getAttribute (heap (document (click sampleBrowser 5 pageRuntime))) 5
       CONTENT_EDITABLE
     = getAttribute (heap (document pageRuntime)) 5 CONTENT_EDITABLE
     ∧ ranges (click sampleBrowser 5 pageRuntime) = ranges pageRuntime)
  ∧ (isImg (heap (document pageRuntime)) 5 = false →
     getAttribute (heap (document (click sampleBrowser 5 pageRuntime))) 5
       CONTENT_EDITABLE = Some "true"
     ∧ ranges (click sampleBrowser 5 pageRuntime) = [5]).
Proof.
  apply (click_image_vs_text sampleBrowser pageRuntime 5).
  apply pageRuntime_clickable. repeat constructor.
Defined.

Lemma contentEditable_persists_witness :
  getAttribute
    (heap (document
             (run sampleBrowser (click sampleBrowser 3 pageRuntime)
                [Click 4; Command ClearSelection; Mutated]))) 3
    CONTENT_EDITABLE = Some "true"
  ∧ (∀ st0 evs0 r0 n,
       attrKey n ≠ attrKey SELECTED →
       is_Some (getAttribute (heap (document st0)) r0 n) →
       is_Some
         (getAttribute (heap (document (run sampleBrowser st0 evs0))) r0 n)).
Proof.
  apply (contentEditable_persists sampleBrowser pageRuntime 3).
  - apply pageRuntime_clickable. repeat constructor.
  - vm_compute; reflexivity.
Defined.

(** ** The interactivity pass makes the content clickable *)

Section Wiring.
Context (browser : Browser).

Lemma interactiveLoop_grows els : ∀ (h : gmap ref Element) ls k,
  (∀ r, is_Some (getAttribute h r EDITOR_ID) →
        is_Some (getAttribute (interactiveLoop browser els h ls k).1.1 r
                   EDITOR_ID))
  ∧ (∀ r, 0 < default 0 (ls !! r) →
          0 < default 0 ((interactiveLoop browser els h ls k).1.2 !! r))
  ∧ (∀ r, is_Some (h !! r) →
          is_Some ((interactiveLoop browser els h ls k).1.1 !! r)).
Proof.
  induction els as [|el els IH]; intros h ls k; [done|].
  simpl.
  set (h1 := if hasAttribute h el EDITOR_ID then h
             else setAttribute h el EDITOR_ID ("el-" +:+ random36 browser k)).
  set (k1 := if hasAttribute h el EDITOR_ID then k else S k).
  assert ((if hasAttribute h el EDITOR_ID then (h, k)
           else (setAttribute h el EDITOR_ID ("el-" +:+ random36 browser k),
                 S k)) = (h1, k1)) as ->
    by (unfold h1, k1; by destruct (hasAttribute h el EDITOR_ID)).
  set (h2 := if isImg h1 el then setAttribute h1 el "draggable" "false" else h1).
  destruct (IH h2 (<[el := S (default 0 (ls !! el))]> ls) k1) as (IHa & IHl & IHh).
  assert (∀ r, is_Some (h !! r) → is_Some (h2 !! r)) as Hal.
  { intros r Hr. unfold h2, h1.
    destruct (isImg _ el); destruct (hasAttribute h el EDITOR_ID);
      rewrite ?lookup_setAttribute_is_Some; done. }
  assert (∀ r, is_Some (getAttribute h r EDITOR_ID) →
               is_Some (getAttribute h2 r EDITOR_ID)) as Hid.
  { intros r [v Hv].
    assert (is_Some (getAttribute h1 r EDITOR_ID)) as [v1 Hv1].
    { unfold h1. destruct (hasAttribute h el EDITOR_ID); [by eexists|].
      rewrite getAttribute_setAttribute. case_decide; [|by eexists].
      destruct (getAttribute_allocated _ _ _ _ Hv) as [e ->]. by eexists. }
    unfold h2. destruct (isImg h1 el); [|by eexists].
    rewrite getAttribute_setAttribute. case_decide; [|by eexists].
    destruct (getAttribute_allocated _ _ _ _ Hv1) as [e ->]. by eexists. }
  split; [|split].
  - intros r Hr. by apply IHa, Hid.
  - intros r Hr. apply IHl.
    destruct (decide (el = r)) as [->|Hne].
    + rewrite lookup_insert_eq. simpl. lia.
    + by rewrite lookup_insert_ne.
  - intros r Hr. by apply IHh, Hal.
Qed.

Lemma interactiveLoop_wires els : ∀ (h : gmap ref Element) ls k r,
  r ∈ els → is_Some (h !! r) →
  is_Some (getAttribute (interactiveLoop browser els h ls k).1.1 r EDITOR_ID)
  ∧ 0 < default 0 ((interactiveLoop browser els h ls k).1.2 !! r).
Proof.
  induction els as [|el els IH]; intros h ls k r Hin Hr.
  { by apply elem_of_nil in Hin. }
  simpl.
  set (h1 := if hasAttribute h el EDITOR_ID then h
             else setAttribute h el EDITOR_ID ("el-" +:+ random36 browser k)).
  set (k1 := if hasAttribute h el EDITOR_ID then k else S k).
  assert ((if hasAttribute h el EDITOR_ID then (h, k)
           else (setAttribute h el EDITOR_ID ("el-" +:+ random36 browser k),
                 S k)) = (h1, k1)) as ->
    by (unfold h1, k1; by destruct (hasAttribute h el EDITOR_ID)).
  set (h2 := if isImg h1 el then setAttribute h1 el "draggable" "false" else h1).
  set (ls1 := <[el := S (default 0 (ls !! el))]> ls).
  assert (∀ x, is_Some (h !! x) → is_Some (h2 !! x)) as Hal.
  { intros x Hx. unfold h2, h1.
    destruct (isImg _ el); destruct (hasAttribute h el EDITOR_ID);
      rewrite ?lookup_setAttribute_is_Some; done. }
  apply elem_of_cons in Hin as [->|Hin]; [|by apply IH; [|apply Hal]].
  destruct (interactiveLoop_grows els h2 ls1 k1) as (Ga & Gl & _).
  split.
  - apply Ga.
    assert (is_Some (getAttribute h1 el EDITOR_ID)) as [v1 Hv1].
    { unfold h1. destruct (hasAttribute h el EDITOR_ID) eqn:E.
      - by apply hasAttribute_true.
      - rewrite getAttribute_setAttribute, decide_True by done.
        destruct Hr as [e ->]. by eexists. }
    unfold h2. destruct (isImg h1 el); [|by eexists].
    rewrite getAttribute_setAttribute. case_decide; [|by eexists].
    destruct (getAttribute_allocated _ _ _ _ Hv1) as [e ->]. by eexists.
  - apply Gl. unfold ls1. rewrite lookup_insert_eq. simpl. lia.
Qed.

Lemma rootChild_elements d tags n r :
  rootChild d tags = Some n → r ∈ elementsOf n → r ∈ allElements d.
Proof.
  unfold rootChild, allElements. destruct (root d) as [r0 kids|]; [|done].
  case_bool_decide; [|done]. intros Hf Hr.
  apply find_some in Hf as [Hin _]. simpl. right.
  apply list_elem_of_In, in_flat_map. exists n.
  split; [done|]. by apply list_elem_of_In.
Qed.

Lemma walk_elements n r : r ∈ walk n → r ∈ elementsOf n.
Proof. destruct n; simpl; [by right|done]. Qed.

(** After [makeInteractive] every element under the body can be
    clicked. *)
Lemma makeInteractive_wires (st : Runtime) b r :
  bodyOf (document st) = Some b →
  r ∈ walk b → is_Some (heap (document st) !! r) →
  clickable (makeInteractive browser st) r.
Proof.
  intros Hb Hr Hal. unfold makeInteractive. rewrite Hb.
  pose proof (interactiveLoop_wires (walk b) (heap (document st))
                (listeners st) (draws st) r Hr Hal) as [Hid Hl].
  pose proof (interactiveLoop_grows (walk b) (heap (document st))
                (listeners st) (draws st)) as (_ & _ & Hh).
  destruct (interactiveLoop browser (walk b) (heap (document st))
              (listeners st) (draws st)) as [[h ls] k]. simpl in *.
  unfold clickable. simpl. split; [|split; [|split]].
  - change (r ∈ allElements (document st)).
    eapply rootChild_elements; [exact Hb|]. by apply walk_elements.
  - by apply Hh.
  - by apply hasAttribute_true.
  - done.
Qed.
(** An element that already has its identifier, and [draggable=false] if
    it is an image, is left exactly as it is by a later pass: the pass
    that follows a change of some other element's content writes to the
    new elements only. *)
Lemma interactiveLoop_settled els : ∀ (h : gmap ref Element) ls k r e,
  h !! r = Some e →
  hasAttribute h r EDITOR_ID = true →
  (isImg h r = true → getAttribute h r "draggable" = Some "false") →
  (interactiveLoop browser els h ls k).1.1 !! r = Some e.
Proof.
  induction els as [|el els IH]; intros h ls k r e Hr Hid Himg; [done|].
  simpl.
  set (h1 := if hasAttribute h el EDITOR_ID then h
             else setAttribute h el EDITOR_ID ("el-" +:+ random36 browser k)).
  set (k1 := if hasAttribute h el EDITOR_ID then k else S k).
  assert ((if hasAttribute h el EDITOR_ID then (h, k)
           else (setAttribute h el EDITOR_ID ("el-" +:+ random36 browser k),
                 S k)) = (h1, k1)) as ->
    by (unfold h1, k1; by destruct (hasAttribute h el EDITOR_ID)).
  set (h2 := if isImg h1 el then setAttribute h1 el "draggable" "false" else h1).
  assert (h1 !! r = Some e) as Hr1.
  { unfold h1. destruct (hasAttribute h el EDITOR_ID) eqn:E; [done|].
    rewrite lookup_setAttribute_ne; [done|]. intros ->. congruence. }
  assert (∀ x n, x = r → getAttribute h1 x n = getAttribute h x n) as Hsame.
  { intros x n ->. unfold getAttribute. by rewrite Hr1, Hr. }
  assert (h2 !! r = Some e) as Hr2.
  { unfold h2. destruct (isImg h1 el) eqn:Ei; [|done].
    destruct (decide (r = el)) as [->|Hne];
      [|by rewrite lookup_setAttribute_ne].
    assert (isImg h el = true) as Ei'.
    { rewrite <-Ei. apply isImg_ext. unfold lowerTag. by rewrite Hr1, Hr. }
    specialize (Himg Ei'). unfold getAttribute in Himg. rewrite Hr in Himg.
    simpl in Himg. unfold setAttribute. rewrite lookup_alter_eq, Hr1. simpl.
    f_equal. destruct e as [t a s]. unfold withAttributes. simpl in *.
    f_equal. by apply insert_id. }
  apply IH; [done| |].
  - apply hasAttribute_true. unfold getAttribute. rewrite Hr2.
    apply hasAttribute_true in Hid. unfold getAttribute in Hid.
    by rewrite Hr in Hid.
  - intros Hi. unfold getAttribute. rewrite Hr2.
    assert (isImg h r = true) as Hi'.
    { rewrite <-Hi. apply isImg_ext. unfold lowerTag. by rewrite Hr2, Hr. }
    specialize (Himg Hi'). unfold getAttribute in Himg. by rewrite Hr in Himg.
Qed.

Lemma makeInteractive_settled (st : Runtime) r e :
  heap (document st) !! r = Some e →
  hasAttribute (heap (document st)) r EDITOR_ID = true →
  (isImg (heap (document st)) r = true →
   getAttribute (heap (document st)) r "draggable" = Some "false") →
  heap (document (makeInteractive browser st)) !! r = Some e.
Proof.
  intros Hr Hid Himg. unfold makeInteractive.
  destruct (bodyOf (document st)) as [b|]; [|done].
  pose proof (interactiveLoop_settled (walk b) (heap (document st))
                (listeners st) (draws st) r e Hr Hid Himg) as Hs.
  by destruct (interactiveLoop browser (walk b) (heap (document st))
                 (listeners st) (draws st)) as [[h ls] k].
Qed.
End Wiring.

(** ** The scenarios of the specification, run on the sample page *)

(** Click the division, then patch the background: the host addresses the
    patch to the division's identifier and the division gets the
    declaration. *)
Example scenario_background :
  sent (applyPropsToSelected
          (deliver sampleHost
             (received (posted (click sampleBrowser 3 pageRuntime))))
          [("background", "red")])
  = [ApplyProps "hero" (Some [("background", "red")])]
  ∧ getStyle
      (heap (document
               (onMessage sampleBrowser (click sampleBrowser 3 pageRuntime)
                  (ApplyProps "hero" (Some [("background", "red")])))))
      3 "background"
    = Some "red".
Proof. split; vm_compute; reflexivity. Qed.

(** Patch the paragraph's [innerHTML]: its content is the new [b]
    element, and its siblings are as they were. *)
Example scenario_innerHTML :
  childrenOf 4
    (root (document
             (onMessage sampleBrowser pageRuntime
                (ApplyProps "el-1" (Some [("innerHTML", "<b>Bold</b>")])))))
  = [ElementNode 6 [TextNode "Bold"]]
  ∧ heap (document
            (onMessage sampleBrowser pageRuntime
               (ApplyProps "el-1" (Some [("innerHTML", "<b>Bold</b>")]))))
      !! 6
    = Some (mkElement "B" ∅ ∅)
  ∧ childrenOf 3
      (root (document
               (onMessage sampleBrowser pageRuntime
                  (ApplyProps "el-1" (Some [("innerHTML", "<b>Bold</b>")])))))
    = [TextNode "hi"]
  ∧ heap (document
            (onMessage sampleBrowser pageRuntime
               (ApplyProps "el-1" (Some [("innerHTML", "<b>Bold</b>")]))))
      !! 3
    = heap (document pageRuntime) !! 3.
Proof. repeat split; vm_compute; reflexivity. Qed.

(** [src] goes to the attribute of an image and to the style of anything
    else. *)
Example scenario_src :
  getAttribute
    (heap (document
             (onMessage sampleBrowser pageRuntime
                (ApplyProps "el-2" (Some [("src", "cat.png")])))))
    5 "src"
  = Some "cat.png"
  ∧ getAttribute
      (heap (document
               (onMessage sampleBrowser pageRuntime
                  (ApplyProps "hero" (Some [("src", "cat.png")])))))
      3 "src"
    = None
  ∧ getStyle
      (heap (document
               (onMessage sampleBrowser pageRuntime
                  (ApplyProps "hero" (Some [("src", "cat.png")])))))
      3 "src"
    = Some "cat.png".
Proof. repeat split; vm_compute; reflexivity. Qed.

(** Select the division, then clear: the host's selection is empty and no
    element has the marker. *)
Example scenario_clear :
  selectedId
    (deliver sampleHost (received (posted (click sampleBrowser 3 pageRuntime))))
  = Some "hero"
  ∧ selectedId
      (clearSelection
         (deliver sampleHost
            (received (posted (click sampleBrowser 3 pageRuntime)))))
    = None
  ∧ querySelectorAll SELECTED
      (document (click sampleBrowser 3 pageRuntime)) = [3]
  ∧ querySelectorAll SELECTED
      (document
         (onMessage sampleBrowser (click sampleBrowser 3 pageRuntime)
            ClearSelection)) = [].
Proof. repeat split; vm_compute; reflexivity. Qed.

(** Clicking the image marks it and makes nothing editable; clicking the
    paragraph afterwards moves the marker and makes the paragraph
    editable. *)
Example scenario_image_then_text :
  querySelectorAll CONTENT_EDITABLE
    (document (click sampleBrowser 5 pageRuntime)) = []
  ∧ querySelectorAll SELECTED
      (document (click sampleBrowser 5 pageRuntime)) = [5]
  ∧ querySelectorAll CONTENT_EDITABLE
      (document (run sampleBrowser pageRuntime [Click 5; Click 4])) = [4]
  ∧ querySelectorAll SELECTED
      (document (run sampleBrowser pageRuntime [Click 5; Click 4])) = [4]
  ∧ ranges (run sampleBrowser pageRuntime [Click 5; Click 4]) = [4].
Proof. repeat split; vm_compute; reflexivity. Qed.

(** Bootstrapping the sample input: the division and the image are
    tagged [el-1] and [el-2], and the script, appended after the tagging,
    carries no identifier. *)
Example scenario_bootstrap :
  (root <$> bootstrapDocument sampleBrowser "<div>Hello</div><img>")
  = Some (ElementNode 0
            [ ElementNode 1 [ElementNode 5 [TextNode STYLE_TEXT]];
              ElementNode 2
                [ ElementNode 3 [TextNode "Hello"]; ElementNode 4 [];
                  ElementNode 6 [TextNode SCRIPT_TEXT] ] ])
  ∧ (bootstrapDocument sampleBrowser "<div>Hello</div><img>"
       ≫= λ d, getAttribute (heap d) 3 EDITOR_ID) = Some "el-1"
  ∧ (bootstrapDocument sampleBrowser "<div>Hello</div><img>"
       ≫= λ d, getAttribute (heap d) 4 EDITOR_ID) = Some "el-2"
  ∧ (bootstrapDocument sampleBrowser "<div>Hello</div><img>"
       ≫= λ d, getAttribute (heap d) 6 EDITOR_ID) = None
  ∧ buildIframeContents sampleBrowser "<div>Hello</div><img>"
    = Some ("<!doctype html>" +:+ newline +:+ "<html></html>").
Proof. repeat split; vm_compute; reflexivity. Qed.

(** * Part III: more of the code *)

(** ** The tagger numbers in document order and writes nothing else *)

Lemma untaggedOf_cons_tagged (h : gmap ref Element) el els :
  hasAttribute h el EDITOR_ID = true →
  untaggedOf h (el :: els) = untaggedOf h els.
Proof.
  intros H. unfold untaggedOf. rewrite filter_cons_False; [done|]. congruence.
Qed.

Lemma untaggedOf_cons_untagged (h : gmap ref Element) el els :
  hasAttribute h el EDITOR_ID = false →
  untaggedOf h (el :: els) = el :: untaggedOf h els.
Proof. intros H. unfold untaggedOf. by rewrite filter_cons_True. Qed.

(** Tagging an element that is not in the list does not change which of
    the list's elements are untagged. *)
Lemma untaggedOf_setAttribute_other (h : gmap ref Element) el v els :
  el ∉ els →
  untaggedOf (setAttribute h el EDITOR_ID v) els = untaggedOf h els.
Proof.
  induction els as [|x els IH]; intros Hnot; [done|].
  apply not_elem_of_cons in Hnot as [Hne Hnot].
  assert (hasAttribute (setAttribute h el EDITOR_ID v) x EDITOR_ID
          = hasAttribute h x EDITOR_ID) as Hsame.
  { unfold hasAttribute. rewrite getAttribute_setAttribute.
    rewrite decide_False; [done|]. intros [-> _]. done. }
  destruct (hasAttribute h x EDITOR_ID) eqn:Hx.
  - rewrite !untaggedOf_cons_tagged by congruence. by apply IH.
  - rewrite !untaggedOf_cons_untagged by congruence. f_equal. by apply IH.
Qed.

Lemma tagLoop_numbers els : ∀ c (h : gmap ref Element) i r,
  NoDup els → allocated h els →
  untaggedOf h els !! i = Some r →
  getAttribute (tagLoop els c h) r EDITOR_ID = Some ("el-" +:+ pretty (c + i)).
Proof.
  induction els as [|el els IH]; intros c h i r Hnd Hal Hi; [done|].
  apply NoDup_cons in Hnd as [Hnot Hnd].
  unfold allocated in Hal. apply Forall_cons in Hal as [Hel Hal].
  simpl. destruct (hasAttribute h el EDITOR_ID) eqn:Hx.
  - rewrite untaggedOf_cons_tagged in Hi by done. by apply IH.
  - rewrite untaggedOf_cons_untagged in Hi by done.
    destruct i as [|j]; simpl in Hi.
    + injection Hi as <-. apply tagLoop_keeps.
      rewrite getAttribute_setAttribute, decide_True by done.
      destruct Hel as [e ->]. simpl. by rewrite Nat.add_0_r.
    + replace (c + S j) with (S c + j) by lia.
      apply IH; [done| |by rewrite untaggedOf_setAttribute_other].
      unfold allocated. apply Forall_forall. intros x Hx'.
      apply lookup_setAttribute_is_Some.
      rewrite Forall_forall in Hal. by apply Hal.
Qed.

(** X1.  The tagger numbers the elements it tags in document order: on a
    tree whose elements under the body are objects of the heap, each once,
    the [i]-th element (from 0) that arrives without an identifier leaves
    with [el-(i+1)], however many tagged elements stand in between. *)
Theorem attachEditorIds_numbers_in_order (d : Document) (b : Node) :
  bodyOf d = Some b →
  NoDup (walk b) →
  allocated (heap d) (walk b) →
  ∃ d1, attachEditorIds d = Some d1
      ∧ ∀ i r, untaggedOf (heap d) (walk b) !! i = Some r →
          getAttribute (heap d1) r EDITOR_ID = Some ("el-" +:+ pretty (S i)).
Proof.
  intros Hb Hnd Hal. unfold attachEditorIds. rewrite Hb. simpl.
  eexists; split; [done|]. intros i r Hi. simpl.
  by apply (tagLoop_numbers (walk b) 1 (heap d) i r).
Qed.

Lemma tagLoop_outside els : ∀ c (h : gmap ref Element) r,
  r ∉ els → tagLoop els c h !! r = h !! r.
Proof.
  induction els as [|el els IH]; intros c h r Hnot; [done|].
  apply not_elem_of_cons in Hnot as [Hne Hnot]. simpl.
  destruct (hasAttribute h el EDITOR_ID); rewrite IH by done; [done|].
  by apply lookup_setAttribute_ne.
Qed.

Lemma tagLoop_other_attribute els : ∀ c (h : gmap ref Element) r n,
  attrKey n ≠ attrKey EDITOR_ID →
  getAttribute (tagLoop els c h) r n = getAttribute h r n.
Proof.
  induction els as [|el els IH]; intros c h r n Hn; [done|]. simpl.
  destruct (hasAttribute h el EDITOR_ID); rewrite IH by done; [done|].
  rewrite getAttribute_setAttribute, decide_False; [done|]. tauto.
Qed.

Lemma tagLoop_style els : ∀ c (h : gmap ref Element) r,
  style <$> tagLoop els c h !! r = style <$> h !! r.
Proof.
  induction els as [|el els IH]; intros c h r; [done|]. simpl.
  destruct (hasAttribute h el EDITOR_ID); rewrite IH; [done|].
  unfold setAttribute. destruct (decide (el = r)) as [->|Hne].
  - rewrite lookup_alter_eq. by destruct (h !! r).
  - by rewrite lookup_alter_ne.
Qed.

(** X2.  [attachEditorIds] writes identifiers and nothing else: the tree
    is the same, an element that is not under the body (the [html],
    [head] and [body] elements among them, on a tree where they are not
    their own descendants) keeps its whole record, and under the body
    every tag, every style and every attribute other than the identifier
    is what it was. *)
Theorem attachEditorIds_writes_identifiers_only (d : Document) (b : Node) :
  bodyOf d = Some b →
  ∃ d1, attachEditorIds d = Some d1
      ∧ root d1 = root d
      ∧ (∀ r, r ∉ walk b → heap d1 !! r = heap d !! r)
      ∧ (∀ r n, attrKey n ≠ attrKey EDITOR_ID →
                getAttribute (heap d1) r n = getAttribute (heap d) r n)
      ∧ (∀ r, style <$> heap d1 !! r = style <$> heap d !! r)
      ∧ (∀ r, lowerTag (heap d1) r = lowerTag (heap d) r).
Proof.
  intros Hb. unfold attachEditorIds. rewrite Hb. simpl.
  eexists; split; [done|]. simpl. split; [done|].
  split; [intros r; apply tagLoop_outside|].
  split; [intros r n; apply tagLoop_other_attribute|].
  split; [intros r; apply tagLoop_style|].
  intros r. apply tagLoop_lowerTag.
Qed.

(** ** The interactivity pass, run once and run again *)

Section WiringAgain.
Context (browser : Browser).
Implicit Types (h : gmap ref Element) (ls : gmap ref nat) (r el : ref).

Lemma interactiveLoop_cons el els h ls k :
  interactiveLoop browser (el :: els) h ls k =
  interactiveLoop browser els (wiredHeap browser h el k)
    (<[el := S (default 0 (ls !! el))]> ls) (drawsAfter h el k).
Proof.
  simpl. unfold wiredHeap, drawsAfter.
  by destruct (hasAttribute h el EDITOR_ID).
Qed.

Lemma wiredHeap_other h el k r :
  r ≠ el → wiredHeap browser h el k !! r = h !! r.
Proof.
  intros Hne. unfold wiredHeap.
  destruct (isImg _ el); destruct (hasAttribute h el EDITOR_ID);
    rewrite ?lookup_setAttribute_ne by done; done.
Qed.

Lemma wiredHeap_lowerTag h el k r :
  lowerTag (wiredHeap browser h el k) r = lowerTag h r.
Proof.
  unfold wiredHeap.
  destruct (isImg _ el); destruct (hasAttribute h el EDITOR_ID);
    rewrite ?lowerTag_setAttribute; done.
Qed.

Lemma wiredHeap_allocated h el k r :
  is_Some (wiredHeap browser h el k !! r) ↔ is_Some (h !! r).
Proof.
  unfold wiredHeap.
  destruct (isImg _ el); destruct (hasAttribute h el EDITOR_ID);
    rewrite ?lookup_setAttribute_is_Some; done.
Qed.

Lemma wiredHeap_attribute h el k r n :
  attrKey n ≠ attrKey EDITOR_ID → attrKey n ≠ attrKey "draggable" →
  getAttribute (wiredHeap browser h el k) r n = getAttribute h r n.
Proof.
  intros H1 H2. unfold wiredHeap.
  destruct (isImg _ el); destruct (hasAttribute h el EDITOR_ID);
    rewrite ?getAttribute_setAttribute, ?decide_False by tauto; done.
Qed.

Lemma wiredHeap_style h el k r :
  style <$> wiredHeap browser h el k !! r = style <$> h !! r.
Proof.
  assert (∀ h' name v, style <$> setAttribute h' el name v !! r
                       = style <$> h' !! r) as Hs.
  { intros h' name v. unfold setAttribute.
    destruct (decide (el = r)) as [->|Hne]; [|by rewrite lookup_alter_ne].
    rewrite lookup_alter_eq. by destruct (h' !! r). }
  unfold wiredHeap.
  destruct (isImg _ el); destruct (hasAttribute h el EDITOR_ID);
    rewrite ?Hs; done.
Qed.

(** An identifier that is there is kept, with its value. *)
Lemma wiredHeap_keeps h el k r v :
  getAttribute h r EDITOR_ID = Some v →
  getAttribute (wiredHeap browser h el k) r EDITOR_ID = Some v.
Proof.
  intros Hv. unfold wiredHeap.
  assert (getAttribute
            (if hasAttribute h el EDITOR_ID then h
             else setAttribute h el EDITOR_ID ("el-" +:+ random36 browser k))
            r EDITOR_ID = Some v) as Hv1.
  { destruct (hasAttribute h el EDITOR_ID) eqn:E; [done|].
    rewrite getAttribute_setAttribute, decide_False; [done|].
    intros [-> _]. apply hasAttribute_false in E. congruence. }
  destruct (isImg _ el); [|done].
  rewrite getAttribute_setAttribute, decide_False; [done|].
  intros [_ Hk]. vm_compute in Hk. discriminate Hk.
Qed.

(** The round settles the element it is run on. *)
Lemma wiredHeap_settles h el k :
  is_Some (h !! el) → settled (wiredHeap browser h el k) el.
Proof.
  intros [e He]. unfold settled.
  set (h1 := if hasAttribute h el EDITOR_ID then h
             else setAttribute h el EDITOR_ID ("el-" +:+ random36 browser k)).
  assert (is_Some (h1 !! el)) as [e1 He1].
  { unfold h1. destruct (hasAttribute h el EDITOR_ID); [by eexists|].
    apply lookup_setAttribute_is_Some. by eexists. }
  assert (is_Some (getAttribute h1 el EDITOR_ID)) as [v Hv].
  { unfold h1. destruct (hasAttribute h el EDITOR_ID) eqn:E.
    - by apply hasAttribute_true.
    - rewrite getAttribute_setAttribute, decide_True by done.
      rewrite He. by eexists. }
  unfold wiredHeap. fold h1. destruct (isImg h1 el) eqn:Ei.
  - split.
    + apply hasAttribute_true. rewrite getAttribute_setAttribute.
      rewrite decide_False; [by eexists|].
      intros [_ Hk]. vm_compute in Hk. discriminate Hk.
    + intros _. rewrite getAttribute_setAttribute, decide_True by done.
      by rewrite He1.
  - split; [apply hasAttribute_true; by eexists|].
    intros Hi. congruence.
Qed.

(** On a settled element, and on a reference that is no object, the round
    writes nothing. *)
Lemma wiredHeap_fixed h el k :
  h !! el = None ∨ settled h el → wiredHeap browser h el k = h.
Proof.
  intros [Hnone|[Hid Himg]]; unfold wiredHeap.
  - rewrite (setAttribute_unallocated h el) by done.
    destruct (hasAttribute h el EDITOR_ID);
      destruct (isImg h el); by rewrite ?setAttribute_unallocated.
  - rewrite Hid. destruct (isImg h el) eqn:Ei; [|done].
    specialize (Himg eq_refl). unfold getAttribute in Himg.
    apply map_eq. intros r. unfold setAttribute.
    destruct (decide (el = r)) as [->|Hne]; [|by rewrite lookup_alter_ne].
    rewrite lookup_alter_eq. destruct (h !! r) as [[t a s]|]; [|done].
    simpl in *. unfold withAttributes. simpl. do 2 f_equal.
    by apply insert_id.
Qed.

Lemma settled_wiredHeap h el k r :
  settled h r → settled (wiredHeap browser h el k) r.
Proof.
  intros [Hid Himg].
  apply hasAttribute_true in Hid as Hid'. destruct Hid' as [v Hv].
  destruct (decide (r = el)) as [->|Hne].
  - apply wiredHeap_settles. by eapply getAttribute_allocated.
  - unfold settled, hasAttribute, isImg, getAttribute, lowerTag in *.
    by rewrite !wiredHeap_other.
Qed.

Lemma interactiveLoop_fixed els : ∀ h ls k,
  (∀ r, r ∈ els → h !! r = None ∨ settled h r) →
  (interactiveLoop browser els h ls k).1.1 = h.
Proof.
  induction els as [|el els IH]; intros h ls k Hall; [done|].
  rewrite interactiveLoop_cons.
  rewrite wiredHeap_fixed by (apply Hall; by left).
  apply IH. intros r Hr. apply Hall. by right.
Qed.

Lemma interactiveLoop_draws_fixed els : ∀ h ls k,
  (∀ r, r ∈ els → settled h r) →
  (interactiveLoop browser els h ls k).2 = k.
Proof.
  induction els as [|el els IH]; intros h ls k Hall; [done|].
  rewrite interactiveLoop_cons.
  rewrite wiredHeap_fixed by (right; apply Hall; by left).
  unfold drawsAfter. destruct (Hall el) as [-> _]; [by left|].
  apply IH. intros r Hr. apply Hall. by right.
Qed.

Lemma interactiveLoop_settles els : ∀ h ls k r,
  (r ∈ els ∧ is_Some (h !! r)) ∨ settled h r →
  settled (interactiveLoop browser els h ls k).1.1 r.
Proof.
  induction els as [|el els IH]; intros h ls k r Hr.
  { destruct Hr as [[Hin _]|Hs]; [by apply elem_of_nil in Hin|done]. }
  rewrite interactiveLoop_cons. apply IH.
  destruct Hr as [[Hin Hal]|Hs]; [|right; by apply settled_wiredHeap].
  apply elem_of_cons in Hin as [->|Hin].
  - right. by apply wiredHeap_settles.
  - left. split; [done|]. by apply wiredHeap_allocated.
Qed.

Lemma interactiveLoop_lowerTag els : ∀ h ls k r,
  lowerTag (interactiveLoop browser els h ls k).1.1 r = lowerTag h r.
Proof.
  induction els as [|el els IH]; intros h ls k r; [done|].
  rewrite interactiveLoop_cons, IH. apply wiredHeap_lowerTag.
Qed.

Lemma interactiveLoop_allocated els : ∀ h ls k r,
  is_Some ((interactiveLoop browser els h ls k).1.1 !! r) ↔ is_Some (h !! r).
Proof.
  induction els as [|el els IH]; intros h ls k r; [done|].
  rewrite interactiveLoop_cons, IH. apply wiredHeap_allocated.
Qed.

Lemma interactiveLoop_outside els : ∀ h ls k r,
  r ∉ els → (interactiveLoop browser els h ls k).1.1 !! r = h !! r.
Proof.
  induction els as [|el els IH]; intros h ls k r Hnot; [done|].
  apply not_elem_of_cons in Hnot as [Hne Hnot].
  rewrite interactiveLoop_cons, IH by done. by apply wiredHeap_other.
Qed.

Lemma interactiveLoop_attribute els : ∀ h ls k r n,
  attrKey n ≠ attrKey EDITOR_ID → attrKey n ≠ attrKey "draggable" →
  getAttribute (interactiveLoop browser els h ls k).1.1 r n
  = getAttribute h r n.
Proof.
  induction els as [|el els IH]; intros h ls k r n H1 H2; [done|].
  rewrite interactiveLoop_cons, IH by done. by apply wiredHeap_attribute.
Qed.

Lemma interactiveLoop_style els : ∀ h ls k r,
  style <$> (interactiveLoop browser els h ls k).1.1 !! r = style <$> h !! r.
Proof.
  induction els as [|el els IH]; intros h ls k r; [done|].
  rewrite interactiveLoop_cons, IH. apply wiredHeap_style.
Qed.

Lemma interactiveLoop_keeps els : ∀ h ls k r v,
  getAttribute h r EDITOR_ID = Some v →
  getAttribute (interactiveLoop browser els h ls k).1.1 r EDITOR_ID = Some v.
Proof.
  induction els as [|el els IH]; intros h ls k r v Hv; [done|].
  rewrite interactiveLoop_cons. apply IH. by apply wiredHeap_keeps.
Qed.

(** Each element of the walk gets one more listener. *)
Lemma interactiveLoop_listeners els : ∀ h ls k r,
  NoDup els →
  default 0 ((interactiveLoop browser els h ls k).1.2 !! r)
  = default 0 (ls !! r) + (if decide (r ∈ els) then 1 else 0).
Proof.
  induction els as [|el els IH]; intros h ls k r Hnd.
  { rewrite decide_False by (by intros ?%elem_of_nil). simpl. lia. }
  apply NoDup_cons in Hnd as [Hnot Hnd].
  rewrite interactiveLoop_cons, IH by done.
  destruct (decide (r = el)) as [->|Hne].
  - rewrite lookup_insert_eq. simpl.
    rewrite (decide_False (P := el ∈ els)) by done.
    rewrite decide_True by (by left). lia.
  - rewrite lookup_insert_ne by done.
    destruct (decide (r ∈ els)) as [Hin|Hin].
    + rewrite decide_True; [done|by right].
    + rewrite decide_False; [done|].
      intros [?|?]%elem_of_cons; done.
Qed.

Lemma makeInteractive_body (st : Runtime) :
  bodyOf (document (makeInteractive browser st)) = bodyOf (document st).
Proof.
  unfold makeInteractive. destruct (bodyOf (document st)) as [b|] eqn:Hb;
    [|done].
  pose proof (interactiveLoop_lowerTag (walk b) (heap (document st))
                (listeners st) (draws st)) as Ht.
  destruct (interactiveLoop browser (walk b) (heap (document st))
              (listeners st) (draws st)) as [[h ls] k]. simpl in *.
  unfold bodyOf in *.
  rewrite (rootChild_tag_ext (heap (document st))) by done.
  by destruct (document st).
Qed.

(** X3.  After [makeInteractive] every element under the body that is an
    object can be clicked (it is in the document, has an identifier and a
    listener), and every image among them has [draggable=false]. *)
Theorem makeInteractive_prepares (st : Runtime) b r :
  bodyOf (document st) = Some b →
  r ∈ walk b → is_Some (heap (document st) !! r) →
  clickable (makeInteractive browser st) r
  ∧ (isImg (heap (document st)) r = true →
     getAttribute (heap (document (makeInteractive browser st))) r "draggable"
       = Some "false").
Proof.
  intros Hb Hr Hal. split; [by eapply makeInteractive_wires|].
  intros Himg. unfold makeInteractive. rewrite Hb.
  pose proof (interactiveLoop_settles (walk b) (heap (document st))
                (listeners st) (draws st) r (or_introl (conj Hr Hal)))
    as [_ Hd].
  pose proof (interactiveLoop_lowerTag (walk b) (heap (document st))
                (listeners st) (draws st) r) as Ht.
  destruct (interactiveLoop browser (walk b) (heap (document st))
              (listeners st) (draws st)) as [[h ls] k]. simpl in *.
  apply Hd. rewrite <-Himg. by apply isImg_ext.
Qed.

(** X4.  [makeInteractive] writes the identifier and [draggable] and
    nothing else: the tree, the text selection and the outbox are the
    same; an element that is not under the body keeps its whole record;
    every tag, every style and every other attribute is what it was; and
    an identifier that was there is kept with its value. *)
Theorem makeInteractive_writes_two_attributes (st : Runtime) :
  root (document (makeInteractive browser st)) = root (document st)
  ∧ ranges (makeInteractive browser st) = ranges st
  ∧ posted (makeInteractive browser st) = posted st
  ∧ (∀ b r, bodyOf (document st) = Some b → r ∉ walk b →
            heap (document (makeInteractive browser st)) !! r
            = heap (document st) !! r)
  ∧ (∀ r n, attrKey n ≠ attrKey EDITOR_ID → attrKey n ≠ attrKey "draggable" →
            getAttribute (heap (document (makeInteractive browser st))) r n
            = getAttribute (heap (document st)) r n)
  ∧ (∀ r, style <$> heap (document (makeInteractive browser st)) !! r
          = style <$> heap (document st) !! r)
  ∧ (∀ r, lowerTag (heap (document (makeInteractive browser st))) r
          = lowerTag (heap (document st)) r)
  ∧ (∀ r v, getAttribute (heap (document st)) r EDITOR_ID = Some v →
            getAttribute (heap (document (makeInteractive browser st))) r
              EDITOR_ID = Some v).
Proof.
  unfold makeInteractive. destruct (bodyOf (document st)) as [b|] eqn:Hb.
  2:{ repeat split; try done. }
  pose proof (interactiveLoop_outside (walk b) (heap (document st))
                (listeners st) (draws st)) as H1.
  pose proof (interactiveLoop_attribute (walk b) (heap (document st))
                (listeners st) (draws st)) as H2.
  pose proof (interactiveLoop_style (walk b) (heap (document st))
                (listeners st) (draws st)) as H3.
  pose proof (interactiveLoop_lowerTag (walk b) (heap (document st))
                (listeners st) (draws st)) as H4.
  pose proof (interactiveLoop_keeps (walk b) (heap (document st))
                (listeners st) (draws st)) as H5.
  destruct (interactiveLoop browser (walk b) (heap (document st))
              (listeners st) (draws st)) as [[h ls] k]. simpl in *.
  repeat split; try done.
  intros b' r [= <-]. apply H1.
Qed.

(** X5.  Running [makeInteractive] again changes nothing in the document
    and draws no random number, but adds one more click listener to every
    element under the body: the pass does not look whether an element is
    wired already. *)
Theorem makeInteractive_again (st : Runtime) b :
  bodyOf (document st) = Some b →
  NoDup (walk b) →
  allocated (heap (document st)) (walk b) →
  document (makeInteractive browser (makeInteractive browser st))
    = document (makeInteractive browser st)
  ∧ draws (makeInteractive browser (makeInteractive browser st))
    = draws (makeInteractive browser st)
  ∧ ∀ r, default 0
           (listeners (makeInteractive browser (makeInteractive browser st))
              !! r)
         = default 0 (listeners (makeInteractive browser st) !! r)
           + (if decide (r ∈ walk b) then 1 else 0).
Proof.
  intros Hb Hnd Hal.
  pose proof (makeInteractive_body st) as Hb1. rewrite Hb in Hb1.
  assert (∀ r, r ∈ walk b →
            settled (heap (document (makeInteractive browser st))) r) as Hset.
  { intros r Hr. unfold makeInteractive. rewrite Hb.
    pose proof (interactiveLoop_settles (walk b) (heap (document st))
                  (listeners st) (draws st) r) as Hs.
    destruct (interactiveLoop browser (walk b) (heap (document st))
                (listeners st) (draws st)) as [[h ls] k]. simpl in *.
    apply Hs. left. split; [done|].
    unfold allocated in Hal. rewrite Forall_forall in Hal. by apply Hal. }
  set (st1 := makeInteractive browser st) in *.
  unfold makeInteractive. rewrite Hb1.
  pose proof (interactiveLoop_fixed (walk b) (heap (document st1))
                (listeners st1) (draws st1)) as Hfix.
  pose proof (interactiveLoop_draws_fixed (walk b) (heap (document st1))
                (listeners st1) (draws st1) Hset) as Hdraw.
  pose proof (interactiveLoop_listeners (walk b) (heap (document st1))
                (listeners st1) (draws st1)) as Hls.
  destruct (interactiveLoop browser (walk b) (heap (document st1))
              (listeners st1) (draws st1)) as [[h ls] k]. simpl in *.
  split; [|split; [done|]].
  - rewrite Hfix by (intros r Hr; right; by apply Hset).
    by destruct (document st1).
  - intros r. by apply Hls.
Qed.
End WiringAgain.

(** ** One click, many listeners *)

Section ClickAgain.
Context (browser : Browser).
Implicit Types (st : Runtime) (this r : ref).

Lemma withAttributes_compose f g (e : Element) :
  withAttributes f (withAttributes g e) = withAttributes (f ∘ g) e.
Proof. by destruct e. Qed.

Lemma lookup_removeFromAll name els : ∀ (h : gmap ref Element) r,
  removeFromAll name els h !! r =
  if decide (r ∈ els) then withAttributes (delete (attrKey name)) <$> h !! r
  else h !! r.
Proof.
  unfold removeFromAll.
  induction els as [|x els IH]; intros h r.
  { by rewrite decide_False by (by intros ?%elem_of_nil). }
  simpl. rewrite IH. unfold removeAttribute.
  destruct (decide (x = r)) as [->|Hne].
  - rewrite lookup_alter_eq. rewrite (decide_True (P := r ∈ r :: els))
      by (by left).
    case_decide; [|done]. destruct (h !! r) as [e|]; [|done]. simpl.
    rewrite withAttributes_compose. destruct e. unfold withAttributes. simpl.
    by rewrite delete_delete_eq.
  - rewrite lookup_alter_ne by done.
    destruct (decide (r ∈ els)) as [Hin|Hin].
    + rewrite decide_True; [done|by right].
    + rewrite decide_False; [done|]. intros [?|?]%elem_of_cons; done.
Qed.

(** The record of every element after one run of the listener. *)
Lemma onClick_lookup this st r :
  heap (document (onClick browser this st)) !! r =
  withAttributes
    (clickAttributes
       (bool_decide (r ∈ querySelectorAll EDITOR_ID (document st)))
       (bool_decide (r = this))
       (isImg (heap (document st)) this))
  <$> heap (document st) !! r.
Proof.
  unfold onClick; simpl. rewrite onClick_guard.
  set (Q := querySelectorAll EDITOR_ID (document st)).
  set (h := heap (document st)).
  assert (setAttribute (removeFromAll SELECTED Q h) this SELECTED "true" !! r
          = withAttributes
              (λ a, let a1 := if bool_decide (r ∈ Q)
                              then delete (attrKey SELECTED) a else a in
                    if bool_decide (r = this)
                    then <[attrKey SELECTED := "true"]> a1 else a1)
            <$> h !! r) as H2.
  { unfold setAttribute. destruct (decide (this = r)) as [->|Hne].
    - rewrite lookup_alter_eq, lookup_removeFromAll.
      rewrite (bool_decide_eq_true_2 (r = r)) by done.
      destruct (decide (r ∈ Q)).
      + rewrite bool_decide_eq_true_2 by done.
        destruct (h !! r); [|done]. simpl. by rewrite withAttributes_compose.
      + rewrite bool_decide_eq_false_2 by done. by destruct (h !! r).
    - rewrite lookup_alter_ne, lookup_removeFromAll by done.
      rewrite (bool_decide_eq_false_2 (r = this)) by done.
      destruct (decide (r ∈ Q)).
      + by rewrite bool_decide_eq_true_2 by done.
      + rewrite bool_decide_eq_false_2 by done.
        destruct (h !! r) as [[t a s]|]; done. }
  unfold clickAttributes. destruct (isImg h this); [exact H2|].
  unfold setAttribute at 1. destruct (decide (this = r)) as [->|Hne].
  - rewrite lookup_alter_eq, H2.
    rewrite !(bool_decide_eq_true_2 (r = r)) by done.
    by destruct (h !! r) as [[t a s]|].
  - rewrite lookup_alter_ne, H2 by done.
    by rewrite !(bool_decide_eq_false_2 (r = this)) by done.
Qed.

Lemma clickAttributes_idempotent q t i a :
  clickAttributes q t i (clickAttributes q t i a) = clickAttributes q t i a.
Proof.
  pose proof key_editable_selected as Hne.
  unfold clickAttributes. destruct q, t, i; simpl;
    apply map_eq; intros k;
    repeat first [rewrite lookup_insert | rewrite lookup_delete];
    repeat case_decide; congruence.
Qed.

Lemma querySelectorAll_onClick this st :
  querySelectorAll EDITOR_ID (document (onClick browser this st))
  = querySelectorAll EDITOR_ID (document st).
Proof.
  unfold querySelectorAll, allElements. rewrite onClick_root.
  apply list_filter_iff. intros r. unfold hasAttribute.
  rewrite onClick_other_attribute; [done|..]; intros Hk; symmetry in Hk.
  - by apply key_selected_id in Hk.
  - by apply key_editable_id in Hk.
Qed.

Lemma onClick_document_idempotent this st :
  document (onClick browser this (onClick browser this st))
  = document (onClick browser this st).
Proof.
  assert (heap (document (onClick browser this (onClick browser this st)))
          = heap (document (onClick browser this st))) as Hheap.
  { apply map_eq. intros r. rewrite (onClick_lookup this (onClick _ _ _)).
    rewrite querySelectorAll_onClick, onClick_isImg, onClick_lookup.
    destruct (heap (document st) !! r) as [e|]; [|done]. simpl.
    by rewrite withAttributes_compose; destruct e; unfold withAttributes;
      simpl; rewrite clickAttributes_idempotent. }
  pose proof (onClick_root browser this (onClick browser this st)) as Hroot.
  revert Hheap Hroot.
  generalize (document (onClick browser this (onClick browser this st))).
  generalize (document (onClick browser this st)).
  intros [h1 n1] [h2 n2]. simpl. by intros -> ->.
Qed.

(** X6.  The listener is idempotent in effect: when it runs again on the
    same element, the document and the text selection stay as the first
    run left them; and a click, however many listeners the element has
    (at least one), leaves the document and the text selection that one
    run of the listener leaves. *)
Theorem click_listener_idempotent this st :
  document (onClick browser this (onClick browser this st))
    = document (onClick browser this st)
  ∧ ranges (onClick browser this (onClick browser this st))
    = ranges (onClick browser this st)
  ∧ (0 < default 0 (listeners st !! this) →
     document (click browser this st) = document (onClick browser this st)
     ∧ ranges (click browser this st) = ranges (onClick browser this st)).
Proof.
  assert (∀ s, ranges (onClick browser this (onClick browser this s))
               = ranges (onClick browser this s)) as Hranges.
  { intros s. rewrite (onClick_ranges browser this (onClick _ _ _)).
    rewrite onClick_isImg, onClick_ranges.
    by destruct (isImg (heap (document s)) this). }
  split; [apply onClick_document_idempotent|]. split; [apply Hranges|].
  intros Hl. unfold click.
  destruct (default 0 (listeners st !! this)) as [|k]; [lia|]. clear Hl.
  induction k as [|k [IHd IHr]]; [done|].
  change (Nat.iter (S (S k)) (onClick browser this) st)
    with (onClick browser this (Nat.iter (S k) (onClick browser this) st)).
  set (s := Nat.iter (S k) (onClick browser this) st) in *.
  assert (document (onClick browser this s)
          = document (onClick browser this (onClick browser this st))) as Hd.
  { unfold onClick at 1 3. by rewrite IHd, IHr. }
  assert (ranges (onClick browser this s)
          = ranges (onClick browser this (onClick browser this st))) as Hr.
  { rewrite (onClick_ranges browser this s).
    rewrite (onClick_ranges browser this (onClick browser this st)).
    by rewrite IHd, IHr. }
  rewrite Hd, Hr. split; [apply onClick_document_idempotent|apply Hranges].
Qed.

(** X7.  A click posts one [selection] message per listener on its
    target, after what was posted before, and each of them carries the
    identifier the target had before the click: an element wired [k]
    times notifies the host [k] times. *)
Theorem click_posts_per_listener this st :
  ∃ msgs,
    posted (click browser this st) = posted st ++ msgs
    ∧ length msgs = default 0 (listeners st !! this)
    ∧ Forall (λ m, ∃ tag outer,
                m = Selection
                      (getAttribute (heap (document st)) this EDITOR_ID)
                      tag outer) msgs.
Proof.
  unfold click. generalize (default 0 (listeners st !! this)) as k.
  induction k as [|k (msgs & Hp & Hlen & Hall)].
  { exists []. simpl. by rewrite app_nil_r. }
  change (Nat.iter (S k) (onClick browser this) st)
    with (onClick browser this (Nat.iter k (onClick browser this) st)).
  set (s := Nat.iter k (onClick browser this) st) in *.
  destruct (onClick_posted browser this s) as (tag & outer & Hpost).
  exists (msgs ++ [Selection (getAttribute (heap (document st)) this EDITOR_ID)
                     tag outer]).
  split; [|split].
  - rewrite Hpost, Hp, <-app_assoc.
    by rewrite (sameFrame_identifier st s this (sameFrame_iter browser st this k)).
  - rewrite length_app. simpl. lia.
  - apply Forall_app. split; [done|]. constructor; [by do 2 eexists|done].
Qed.
End ClickAgain.

(** ** Bootstrapping what was bootstrapped *)

(** X8.  [buildIframeContents] does not look whether a document has been
    through it: its steps after the parse, run on the document they
    produced, append a second style block and a second script.  The first
    script, which the first run left without an identifier, is tagged by
    the second; the second script is not. *)
Theorem bootstrap_again browser html :
  ∃ doc doc2 hk bk style1 script1 style2 script2,
    bootstrapDocument browser html = Some doc
    ∧ injectInto browser doc = Some doc2
    ∧ root doc
      = ElementNode 0
          [ ElementNode 1 (hk ++ [ElementNode style1 [TextNode STYLE_TEXT]]);
            ElementNode 2 (bk ++ [ElementNode script1 [TextNode SCRIPT_TEXT]]) ]
    ∧ root doc2
      = ElementNode 0
          [ ElementNode 1
              ((hk ++ [ElementNode style1 [TextNode STYLE_TEXT]])
               ++ [ElementNode style2 [TextNode STYLE_TEXT]]);
            ElementNode 2
              ((bk ++ [ElementNode script1 [TextNode SCRIPT_TEXT]])
               ++ [ElementNode script2 [TextNode SCRIPT_TEXT]]) ]
    ∧ style1 ≠ style2 ∧ script1 ≠ script2
    ∧ getAttribute (heap doc) script1 EDITOR_ID = None
    ∧ is_Some (getAttribute (heap doc2) script1 EDITOR_ID)
    ∧ getAttribute (heap doc2) script2 EDITOR_ID = None.
Proof.
  unfold bootstrapDocument.
  destruct (load_standard (parseFromString browser html))
    as (h & hk & bk & -> & H0 & H1 & H2 & Hb1 & Hh2 & Hal).
  destruct (injectInto_standard browser h hk bk H0 H1 H2 Hb1 Hh2 Hal)
    as (h' & style1 & script1 & Hinj1 & Hs1 & Hc1 & Hne & Es1 & Ec1
        & Htag & _ & _ & Htags).
  assert (∀ i t, lowerTag h i = Some t → i ≠ style1 ∧ i ≠ script1) as Hold.
  { intros i t Hi. apply lowerTag_allocated in Hi as [e He].
    split; intros ->; congruence. }
  assert (lowerTag h 2 = Some "body" ∨ lowerTag h 2 = Some "frameset" →
          ∃ t, lowerTag h 2 = Some t) as H2t.
  { intros [?|?]; by eexists. }
  destruct (H2t H2) as [t2 Ht2].
  destruct (injectInto_standard browser h'
              (hk ++ [ElementNode style1 [TextNode STYLE_TEXT]])
              (bk ++ [ElementNode script1 [TextNode SCRIPT_TEXT]]))
    as (h'' & style2 & script2 & Hinj2 & Hs2 & Hc2 & Hne2 & Es2 & Ec2
        & Htag2 & _ & _ & _).
  - by apply Htags.
  - by apply Htags.
  - destruct H2 as [H2|H2]; [left|right]; by apply Htags.
  - rewrite flat_map_app. simpl. rewrite elem_of_app.
    intros [?|Hin]; [done|]. apply elem_of_cons in Hin as [Heq|Hin];
      [|by apply elem_of_nil in Hin].
    destruct (Hold 1 _ H1) as [_ ?]. done.
  - rewrite flat_map_app. simpl. rewrite elem_of_app.
    intros [?|Hin]; [done|]. apply elem_of_cons in Hin as [Heq|Hin];
      [|by apply elem_of_nil in Hin].
    destruct (Hold 2 _ Ht2) as [? _]. done.
  - unfold allocated. rewrite flat_map_app. apply Forall_app. split.
    + apply Forall_forall. intros r Hr. destruct (Htag r Hr) as [v Hv].
      by eapply getAttribute_allocated.
    + simpl. repeat constructor. rewrite Ec1. by eexists.
  - exists (mkDocument h'
              (ElementNode 0
                 [ ElementNode 1
                     (hk ++ [ElementNode style1 [TextNode STYLE_TEXT]]);
                   ElementNode 2
                     (bk ++ [ElementNode script1 [TextNode SCRIPT_TEXT]]) ])).
    eexists. exists hk, bk, style1, script1, style2, script2.
    split; [exact Hinj1|]. split; [exact Hinj2|].
    split; [done|]. split; [done|].
    split; [intros ->; congruence|]. split; [intros ->; congruence|].
    split; [|split].
    + cbn [heap]. unfold getAttribute. by rewrite Ec1.
    + apply Htag2. rewrite flat_map_app. apply elem_of_app. right.
      simpl. by left.
    + cbn [heap]. unfold getAttribute. by rewrite Ec2.
Qed.

(** ** What the host keeps *)

Lemma deliver_snoc (h : Host) inbox m :
  deliver h (inbox ++ [m]) = handler (deliver h inbox) m.1 m.2.
Proof. unfold deliver. by rewrite foldl_app. Qed.

Lemma lastSelection_snoc msgs m :
  lastSelection (msgs ++ [m]) =
  match m with
  | Selection id _ _ => Some id
  | _ => lastSelection msgs
  end.
Proof. unfold lastSelection. by rewrite foldl_app. Qed.

Lemma handler_fixed_fields (h : Host) m cur :
  iframeMounted (handler h m cur) = iframeMounted h
  ∧ sent (handler h m cur) = sent h
  ∧ timers (handler h m cur) = timers h.
Proof.
  destruct m; simpl; [done| |done].
  destruct (iframeMounted h) eqn:E; [|done]. by destruct cur.
Qed.

Lemma deliver_fixed_fields (h : Host) inbox :
  iframeMounted (deliver h inbox) = iframeMounted h
  ∧ sent (deliver h inbox) = sent h
  ∧ timers (deliver h inbox) = timers h.
Proof.
  induction inbox as [|m inbox IH] using rev_ind; [done|].
  rewrite deliver_snoc.
  destruct (handler_fixed_fields (deliver h inbox) m.1 m.2) as (-> & -> & ->).
  exact IH.
Qed.

(** X9.  Whatever messages the host takes, in whatever order: its
    selected identifier is the one of the last [selection] message, or
    the one it had when there was none ([content-changed] and
    [iframe-ready] never touch it); it never posts a command or sets a
    timer in answer to a message; and its selection info goes on
    describing the selected identifier. *)
Theorem deliver_keeps_selection_state (h : Host) inbox :
  selectedId (deliver h inbox)
    = default (selectedId h) (lastSelection inbox.*1)
  ∧ iframeMounted (deliver h inbox) = iframeMounted h
  ∧ sent (deliver h inbox) = sent h
  ∧ timers (deliver h inbox) = timers h
  ∧ (selectionAgrees h → selectionAgrees (deliver h inbox)).
Proof.
  split; [|split; [|split; [|split]]]; try apply deliver_fixed_fields.
  - induction inbox as [|[m cur] inbox IH] using rev_ind; [done|].
    rewrite deliver_snoc, fmap_app.
    change ([(m, cur)].*1) with [m]. rewrite lastSelection_snoc. simpl.
    destruct m; simpl; [done| |done].
    destruct (iframeMounted (deliver h inbox)) eqn:E; [|done]. by destruct cur.
  - intros Hag. induction inbox as [|[m cur] inbox IH] using rev_ind; [done|].
    rewrite deliver_snoc. simpl. unfold selectionAgrees in *.
    destruct m; simpl; [done| |done].
    destruct (iframeMounted (deliver h inbox)) eqn:E; [|done]. by destruct cur.
Qed.

(** X10.  The operations of the host keep the selection info and the
    selected identifier in agreement: a message, a property change, the
    flex toggle and clearing the selection all leave a host whose info,
    when it has one, carries the selected identifier, and which has no
    selected identifier when it has no info. *)
Theorem host_selection_agrees (h : Host) :
  selectionAgrees h →
  (∀ m cur, selectionAgrees (handler h m cur))
  ∧ (∀ props, selectionAgrees (applyPropsToSelected h props))
  ∧ (∀ direction, selectionAgrees (toggleFlexDirection h direction))
  ∧ selectionAgrees (clearSelection h).
Proof.
  intros Hag.
  assert (∀ props, selectionAgrees (applyPropsToSelected h props)) as Hap.
  { intros props. unfold applyPropsToSelected.
    by destruct (negb (iframeMounted h) || negb (truthy (selectedId h))). }
  split; [|split; [done|split; [intros; apply Hap|]]].
  - intros m cur. unfold selectionAgrees in *.
    destruct m; simpl; [done| |done].
    destruct (iframeMounted h) eqn:E; [|done]. by destruct cur.
  - unfold clearSelection. by destruct (negb (iframeMounted h)).
Qed.

(** ** From a click to the patch *)

Section RoundTrip.
Context (browser : Browser).

(** The host, given what a click posted, selects the identifier of the
    clicked element. *)
Lemma click_selects (st : Runtime) (host : Host) A inbox :
  clickable st A →
  inbox.*1 = posted (click browser A st) →
  selectedId (deliver host inbox)
  = getAttribute (heap (document st)) A EDITOR_ID.
Proof.
  intros Hcl Hin.
  destruct (click_posted browser st A Hcl) as (earlier & tag & outer & Hp).
  eapply deliver_selection_last. rewrite Hin. exact Hp.
Qed.

(** After the click the identifier still resolves to the clicked
    element, when no other element has it. *)
Lemma click_resolves (st : Runtime) A id :
  clickable st A →
  getAttribute (heap (document st)) A EDITOR_ID = Some id →
  selectorSafe id = true →
  (∀ r, r ∈ allElements (document st) →
        getAttribute (heap (document st)) r EDITOR_ID = Some id → r = A) →
  querySelectorById browser (document (click browser A st)) id = QueryFound A.
Proof.
  intros Hcl Hid Hsafe Huniq.
  pose proof (sameFrame_click browser st A) as Hsf.
  assert (allElements (document (click browser A st))
          = allElements (document st)) as Hall.
  { unfold allElements. by rewrite (proj1 Hsf). }
  apply querySelectorById_unique; [done| | |].
  - rewrite Hall. by destruct Hcl.
  - by rewrite (sameFrame_identifier st _ A Hsf).
  - intros r Hr Hg. apply Huniq; [by rewrite <- Hall|].
    by rewrite <- (sameFrame_identifier st _ r Hsf).
Qed.


(** X11.  From a click to the patch: when the host is mounted and has
    taken the messages of a click on an element whose identifier is not
    empty, has no character that needs escaping in a selector and is on no
    other element, a property change made in the host posts exactly one
    [apply-props] command, with that identifier, and sets one timer; and
    the frame, handling that command, folds the properties over the
    clicked element. *)
Theorem host_patch_reaches_clicked (st : Runtime) (host : Host) A id inbox
    props :
  clickable st A →
  iframeMounted host = true →
  getAttribute (heap (document st)) A EDITOR_ID = Some id →
  id ≠ EmptyString →
  selectorSafe id = true →
  (∀ r, r ∈ allElements (document st) →
        getAttribute (heap (document st)) r EDITOR_ID = Some id → r = A) →
  inbox.*1 = posted (click browser A st) →
  let st1 := click browser A st in
  let h1 := applyPropsToSelected (deliver host inbox) props in
  sent h1 = sent host ++ [ApplyProps id (Some props)]
  ∧ timers h1 = S (timers host)
  ∧ selectedId h1 = Some id
  ∧ onMessage browser st1 (ApplyProps id (Some props))
    = withDocument st1 (foldl (applyEntry browser A) (document st1) props).
Proof.
  intros Hcl Hm Hid Hne Hsafe Huniq Hin st1 h1.
  pose proof (click_selects st host A inbox Hcl Hin) as Hsel.
  rewrite Hid in Hsel.
  destruct (deliver_fixed_fields host inbox) as (Em & Es & Et).
  assert (h1 = mkHost (iframeMounted (deliver host inbox))
                 (htmlSource (deliver host inbox)) (Some id)
                 (selectionInfo (deliver host inbox))
                 (sent host ++ [ApplyProps id (Some props)])
                 (S (timers host))) as ->.
  { unfold h1, applyPropsToSelected. rewrite Em, Hm, Hsel, Es, Et. simpl.
    by rewrite bool_decide_false by done. }
  split; [done|]. split; [done|]. split; [done|].
  unfold onMessage, commandBody, st1.
  by rewrite (click_resolves st A id Hcl Hid Hsafe Huniq).
Qed.


Lemma find_in_prefix {T} (p : T → bool) (before rest : list T) x y :
  y ∈ before → p y = true →
  List.find p (before ++ rest) = Some x → x ∈ before.
Proof.
  induction before as [|a before IH]; intros Hy Hp Hf.
  - by apply elem_of_nil in Hy.
  - simpl in Hf. destruct (p a) eqn:Ha.
    + injection Hf as <-. by left.
    + right. apply IH; [|done..].
      apply elem_of_cons in Hy as [->|Hy]; [congruence|done].
Qed.

(** X13.  An element that comes, in document order, after another one
    with the same identifier cannot be reached by the host: no
    [apply-props] command, whatever identifier (free of characters that
    need escaping) and properties it carries, changes that element. *)
Theorem shadowed_element_unreachable (st : Runtime) before r after r0 :
  allElements (document st) = before ++ r :: after →
  r ∉ before → r0 ∈ before →
  getAttribute (heap (document st)) r0 EDITOR_ID
  = getAttribute (heap (document st)) r EDITOR_ID →
  ∀ id props e,
    selectorSafe id = true →
    heap (document st) !! r = Some e →
    heap (document (onMessage browser st (ApplyProps id props))) !! r
    = Some e.
Proof.
  intros Hall Hnot Hin Hsame id props e Hsafe He.
  unfold onMessage, commandBody, querySelectorById. rewrite Hsafe.
  destruct (List.find _ (allElements (document st))) as [el|] eqn:Hf;
    [|done].
  destruct props as [entries|]; [|done]. cbn [document withDocument].
  apply applyEntries_frame; [|done].
  intros <-. apply Hnot.
  pose proof Hf as Hp. apply find_some in Hp as [_ Hp].
  apply bool_decide_eq_true in Hp.
  rewrite Hall in Hf. eapply find_in_prefix; [exact Hin| |exact Hf].
  apply bool_decide_eq_true. by rewrite Hsame.
Qed.
End RoundTrip.

(** ** What no event undoes *)

Section Permanent.
Context (browser : Browser).

Lemma keepsIdentity_refl h : keepsIdentity h h.
Proof. by intros r. Qed.

Lemma keepsIdentity_trans h1 h2 h3 :
  keepsIdentity h1 h2 → keepsIdentity h2 h3 → keepsIdentity h1 h3.
Proof.
  intros H12 H23 r. destruct (H12 r) as [Ha Hb], (H23 r) as [Hc Hd].
  split; eauto.
Qed.

Lemma keepsIdentity_sameFrame st st' :
  sameFrame st st' →
  keepsIdentity (heap (document st)) (heap (document st')).
Proof.
  intros Hsf r. split.
  - intros v Hv. by rewrite (sameFrame_identifier st st' r Hsf).
  - intros t Ht. destruct Hsf as (_ & _ & _ & Htag & _). by rewrite Htag.
Qed.

Lemma keepsIdentity_createAll h ms : keepsIdentity h (createAll ms h).2.
Proof.
  intros r. unfold getAttribute, lowerTag.
  destruct (h !! r) as [e|] eqn:E; [|done].
  by rewrite (createAll_frame ms h r e E).
Qed.

Lemma keepsIdentity_applyEntry el d entry :
  keepsIdentity (heap d) (heap (applyEntry browser el d entry)).
Proof.
  destruct entry as [k v]. unfold applyEntry. case_bool_decide.
  - unfold setInnerHTML.
    destruct (heap d !! el) as [e|]; [|apply keepsIdentity_refl].
    pose proof (keepsIdentity_createAll (heap d) (fragment browser e v)) as Hs.
    by destruct (createAll (fragment browser e v) (heap d)).
  - destruct (bool_decide (k = "src") && isImg (heap d) el); simpl; intros r.
    + rewrite lowerTag_setAttribute. split; [|done]. intros w Hw.
      rewrite getAttribute_setAttribute, decide_False; [done|].
      intros [_ Hk]. vm_compute in Hk. discriminate Hk.
    + by rewrite lowerTag_setStyle, getAttribute_setStyle.
Qed.

Lemma keepsIdentity_applyEntries el entries : ∀ d,
  keepsIdentity (heap d) (heap (foldl (applyEntry browser el) d entries)).
Proof.
  induction entries as [|entry entries IH]; intros d;
    [apply keepsIdentity_refl|].
  simpl. eapply keepsIdentity_trans; [apply keepsIdentity_applyEntry|apply IH].
Qed.

Lemma keepsIdentity_onMessage st msg :
  keepsIdentity (heap (document st))
    (heap (document (onMessage browser st msg))).
Proof.
  unfold onMessage, commandBody. destruct msg as [id props| |].
  - destruct (querySelectorById browser (document st) id);
      [apply keepsIdentity_refl..|].
    destruct props; [|apply keepsIdentity_refl].
    apply keepsIdentity_applyEntries.
  - simpl. intros r. rewrite lowerTag_removeFromAll. split; [|done].
    intros v Hv. rewrite getAttribute_removeFromAll, decide_False; [done|].
    intros [_ Hk]. vm_compute in Hk. discriminate Hk.
  - apply keepsIdentity_refl.
Qed.

Lemma keepsIdentity_makeInteractive st :
  keepsIdentity (heap (document st))
    (heap (document (makeInteractive browser st))).
Proof.
  unfold makeInteractive. destruct (bodyOf (document st)) as [b|];
    [|apply keepsIdentity_refl].
  pose proof (interactiveLoop_keeps browser (walk b) (heap (document st))
                (listeners st) (draws st)) as Hk.
  pose proof (interactiveLoop_lowerTag browser (walk b) (heap (document st))
                (listeners st) (draws st)) as Ht.
  destruct (interactiveLoop browser (walk b) (heap (document st))
              (listeners st) (draws st)) as [[h ls] k]. simpl in *.
  intros r. split; [apply Hk|]. intros t. by rewrite Ht.
Qed.

Lemma keepsIdentity_step st ev :
  keepsIdentity (heap (document st)) (heap (document (step browser st ev))).
Proof.
  destruct ev; simpl.
  - apply keepsIdentity_sameFrame, sameFrame_click.
  - apply keepsIdentity_onMessage.
  - apply keepsIdentity_makeInteractive.
  - unfold onInput. destruct (getAttribute _ target EDITOR_ID) as [id|];
      [|apply keepsIdentity_refl].
    destruct (truthy (Some id)); apply keepsIdentity_refl.
Qed.

(** X14.  Identifiers are permanent: whatever the frame handles (clicks,
    commands of the host with any identifier and properties, re-wiring
    passes, input events), an element that has an identifier keeps that
    very identifier, and an element keeps its tag.  The host can go on
    addressing an element by the identifier it was told. *)
Theorem identifier_is_permanent (st : Runtime) evs r :
  (∀ id, getAttribute (heap (document st)) r EDITOR_ID = Some id →
         getAttribute (heap (document (run browser st evs))) r EDITOR_ID
         = Some id)
  ∧ (∀ t, lowerTag (heap (document st)) r = Some t →
          lowerTag (heap (document (run browser st evs))) r = Some t).
Proof.
  revert st. induction evs as [|ev evs IH]; intros st; [done|].
  simpl. destruct (keepsIdentity_step st ev r) as [Ha Hb].
  destruct (IH (step browser st ev)) as [Hc Hd]. split; eauto.
Qed.

Lemma grows_refl st : grows st st.
Proof. split; [exists []; by rewrite app_nil_r|]. split; [intros; lia|lia]. Qed.

Lemma grows_withDocument st d : grows st (withDocument st d).
Proof.
  split; [exists []; simpl; by rewrite app_nil_r|].
  split; [intros r; simpl; lia|simpl; lia].
Qed.

Lemma grows_trans st1 st2 st3 : grows st1 st2 → grows st2 st3 → grows st1 st3.
Proof.
  intros ([m1 H1] & L1 & D1) ([m2 H2] & L2 & D2). split; [|split].
  - exists (m1 ++ m2). by rewrite H2, H1, app_assoc.
  - intros r. specialize (L1 r). specialize (L2 r). lia.
  - lia.
Qed.

Lemma grows_onClick this st : grows st (onClick browser this st).
Proof.
  split; [by eexists|]. split; [intros r; simpl; lia|simpl; lia].
Qed.

Lemma interactiveLoop_grows_both els : ∀ h ls k r,
  default 0 (ls !! r)
    ≤ default 0 ((interactiveLoop browser els h ls k).1.2 !! r)
  ∧ k ≤ (interactiveLoop browser els h ls k).2.
Proof.
  induction els as [|el els IH]; intros h ls k r; [simpl; lia|].
  rewrite interactiveLoop_cons.
  destruct (IH (wiredHeap browser h el k)
              (<[el := S (default 0 (ls !! el))]> ls)
              (drawsAfter h el k) r) as [Hl Hd].
  split.
  - etransitivity; [|exact Hl].
    destruct (decide (el = r)) as [->|Hne].
    + rewrite lookup_insert_eq. simpl. lia.
    + by rewrite lookup_insert_ne.
  - etransitivity; [|exact Hd]. unfold drawsAfter.
    destruct (hasAttribute h el EDITOR_ID); lia.
Qed.

Lemma grows_step st ev : grows st (step browser st ev).
Proof.
  destruct ev; simpl.
  - unfold click.
    apply (iter_onClick_invariant browser (λ s, grows st s));
      [apply grows_refl|].
    intros s Hs. eapply grows_trans; [done|apply grows_onClick].
  - unfold onMessage, commandBody. destruct msg as [id props| |];
      [|apply grows_withDocument|apply grows_refl].
    destruct (querySelectorById browser (document st) id);
      [apply grows_refl..|].
    destruct props; [apply grows_withDocument|apply grows_refl].
  - unfold makeInteractive. destruct (bodyOf (document st)) as [b|];
      [|apply grows_refl].
    pose proof (interactiveLoop_grows_both (walk b) (heap (document st))
                  (listeners st) (draws st)) as Hg.
    destruct (interactiveLoop browser (walk b) (heap (document st))
                (listeners st) (draws st)) as [[h ls] k]. simpl in *.
    split; [exists []; by rewrite app_nil_r|]. split.
    + intros r. apply Hg.
    + apply (Hg 0).
  - unfold onInput. destruct (getAttribute _ target EDITOR_ID) as [id|];
      [|apply grows_refl].
    destruct (truthy (Some id)); [|apply grows_refl].
    split; [by eexists|]. split; [intros r; simpl; lia|simpl; lia].
Qed.

(** X15.  The frame takes nothing back: over any sequence of events the
    messages it has posted stay posted, in order, ahead of the new ones;
    no element ever loses a click listener (no [removeEventListener]),
    so the listeners that re-wiring passes pile up stay; and the count
    of random draws never goes down. *)
Theorem frame_takes_nothing_back (st : Runtime) evs :
  (∃ more, posted (run browser st evs) = posted st ++ more)
  ∧ (∀ r, default 0 (listeners st !! r)
          ≤ default 0 (listeners (run browser st evs) !! r))
  ∧ draws st ≤ draws (run browser st evs).
Proof.
  change (grows st (run browser st evs)).
  revert st. induction evs as [|ev evs IH]; intros st; [apply grows_refl|].
  simpl. eapply grows_trans; [apply grows_step|apply IH].
Qed.

(** X16.  Start-up: with a body, once the start-up code has run every
    element under the body that is an object of the heap can be clicked
    (it is in the document with an identifier and a listener), and the
    one message posted is [iframe-ready] with the serialisation of the
    document as wired, which the host stores as its source.  Without a
    body nothing is posted: the frame never reports ready. *)
Theorem startup_reports_wired_document (st : Runtime) :
  (∀ b, bodyOf (document st) = Some b →
     (∀ r, r ∈ walk b → is_Some (heap (document st) !! r) →
           clickable (startup browser st) r)
     ∧ document (startup browser st) = document (makeInteractive browser st)
     ∧ ∃ html,
         html = serialize browser (heap (document (startup browser st)))
                  (root (document (startup browser st)))
         ∧ posted (startup browser st) = posted st ++ [IframeReady html]
         ∧ ∀ host cur, htmlSource (handler host (IframeReady html) cur) = html)
  ∧ (bodyOf (document st) = None → startup browser st = st).
Proof.
  unfold startup. split.
  - intros b Hb. rewrite Hb. split; [|split].
    + intros r Hr Hal.
      destruct (makeInteractive_wires browser st b r Hb Hr Hal)
        as (H1 & H2 & H3 & H4).
      by repeat split.
    + done.
    + eexists. split; [done|]. split; [|done].
      simpl. f_equal. unfold makeInteractive. rewrite Hb.
      by destruct (interactiveLoop browser (walk b) (heap (document st))
                     (listeners st) (draws st)) as [[h ls] k].
  - by intros ->.
Qed.

Lemma untaggedOf_wiredHeap_other h el k els :
  el ∉ els →
  untaggedOf (wiredHeap browser h el k) els = untaggedOf h els.
Proof.
  induction els as [|x els IH]; intros Hnot; [done|].
  apply not_elem_of_cons in Hnot as [Hne Hnot].
  assert (hasAttribute (wiredHeap browser h el k) x EDITOR_ID
          = hasAttribute h x EDITOR_ID) as Hsame.
  { unfold hasAttribute, getAttribute. by rewrite wiredHeap_other. }
  destruct (hasAttribute h x EDITOR_ID) eqn:Hx.
  - rewrite !untaggedOf_cons_tagged by congruence. by apply IH.
  - rewrite !untaggedOf_cons_untagged by congruence. f_equal. by apply IH.
Qed.

Lemma wiredHeap_assigns h el k :
  is_Some (h !! el) → hasAttribute h el EDITOR_ID = false →
  getAttribute (wiredHeap browser h el k) el EDITOR_ID
  = Some ("el-" +:+ random36 browser k).
Proof.
  intros [e He] Hx. unfold wiredHeap. rewrite Hx.
  assert (getAttribute
            (setAttribute h el EDITOR_ID ("el-" +:+ random36 browser k))
            el EDITOR_ID = Some ("el-" +:+ random36 browser k)) as Hv.
  { rewrite getAttribute_setAttribute, decide_True by done. by rewrite He. }
  destruct (isImg _ el); [|done].
  rewrite getAttribute_setAttribute, decide_False; [done|].
  intros [_ Hk]. vm_compute in Hk. discriminate Hk.
Qed.

Lemma interactiveLoop_numbers els : ∀ h ls k,
  NoDup els → allocated h els →
  (interactiveLoop browser els h ls k).2 = k + length (untaggedOf h els)
  ∧ ∀ i r, untaggedOf h els !! i = Some r →
      getAttribute (interactiveLoop browser els h ls k).1.1 r EDITOR_ID
      = Some ("el-" +:+ random36 browser (k + i)).
Proof.
  induction els as [|el els IH]; intros h ls k Hnd Hal.
  { split; [simpl; lia|done]. }
  apply NoDup_cons in Hnd as [Hnot Hnd].
  unfold allocated in Hal. apply Forall_cons in Hal as [Hel Hal].
  assert (allocated (wiredHeap browser h el k) els) as Hal'.
  { unfold allocated. apply Forall_forall. intros x Hx.
    apply wiredHeap_allocated. rewrite Forall_forall in Hal. by apply Hal. }
  rewrite interactiveLoop_cons.
  destruct (IH (wiredHeap browser h el k)
              (<[el := S (default 0 (ls !! el))]> ls)
              (drawsAfter h el k) Hnd Hal') as [Hd Hn].
  rewrite untaggedOf_wiredHeap_other in Hd, Hn by done.
  unfold drawsAfter in *.
  destruct (hasAttribute h el EDITOR_ID) eqn:Hx.
  - rewrite untaggedOf_cons_tagged by done. split; [done|apply Hn].
  - rewrite untaggedOf_cons_untagged by done. split; [simpl; lia|].
    intros [|j] r Hi; simpl in Hi.
    + injection Hi as <-. apply interactiveLoop_keeps.
      rewrite Nat.add_0_r. by apply wiredHeap_assigns.
    + replace (k + S j) with (S k + j) by lia. by apply Hn.
Qed.

(** X17.  The wiring pass draws one random identifier per element that
    arrives without one, in document order: on a body whose elements are
    objects of the heap, each once, the [i]-th untagged element (from 0)
    gets [el-] followed by the [i]-th draw after those already made, and
    the count of draws grows by the number of untagged elements. *)
Theorem makeInteractive_draws_in_order (st : Runtime) b :
  bodyOf (document st) = Some b →
  NoDup (walk b) →
  allocated (heap (document st)) (walk b) →
  draws (makeInteractive browser st)
  = draws st + length (untaggedOf (heap (document st)) (walk b))
  ∧ ∀ i r, untaggedOf (heap (document st)) (walk b) !! i = Some r →
      getAttribute (heap (document (makeInteractive browser st))) r EDITOR_ID
      = Some ("el-" +:+ random36 browser (draws st + i)).
Proof.
  intros Hb Hnd Hal. unfold makeInteractive. rewrite Hb.
  pose proof (interactiveLoop_numbers (walk b) (heap (document st))
                (listeners st) (draws st) Hnd Hal) as [Hd Hn].
  by destruct (interactiveLoop browser (walk b) (heap (document st))
                 (listeners st) (draws st)) as [[h ls] k].
Qed.
Lemma interactiveLoop_app l1 : ∀ l2 h ls k,
  interactiveLoop browser (l1 ++ l2) h ls k
  = interactiveLoop browser l2
      (interactiveLoop browser l1 h ls k).1.1
      (interactiveLoop browser l1 h ls k).1.2
      (interactiveLoop browser l1 h ls k).2.
Proof.
  induction l1 as [|el l1 IH]; intros l2 h ls k; [done|].
  rewrite <- app_comm_cons, !interactiveLoop_cons. apply IH.
Qed.

Lemma interactiveLoop_draws_tagged els : ∀ h ls k,
  (∀ r, r ∈ els → hasAttribute h r EDITOR_ID = true) →
  (interactiveLoop browser els h ls k).2 = k.
Proof.
  induction els as [|el els IH]; intros h ls k Hall; [done|].
  rewrite interactiveLoop_cons. unfold drawsAfter.
  rewrite (Hall el) by (by left). apply IH. intros r Hr.
  apply hasAttribute_true.
  destruct (proj1 (hasAttribute_true _ _ _) (Hall r ltac:(by right)))
    as [v Hv].
  exists v. by apply wiredHeap_keeps.
Qed.

(** X18.  The script that [buildIframeContents] appends to the body is
    itself an element under the body.  When the frame starts on the
    bootstrapped document, the wiring pass walks it like any other
    element: the script, the one element under the body that the
    bootstrapper left without an identifier, gets a click listener and a
    random identifier, made from the first draw. *)
Theorem startup_wires_the_script (html : string) (st : Runtime) :
  bootstrapDocument browser html = Some (document st) →
  ∃ script b others,
    bodyOf (document st) = Some b
    ∧ walk b = others ++ [script]
    ∧ lowerTag (heap (document st)) script = Some "script"
    ∧ (∀ r, r ∈ others →
            hasAttribute (heap (document st)) r EDITOR_ID = true)
    ∧ hasAttribute (heap (document st)) script EDITOR_ID = false
    ∧ clickable (startup browser st) script
    ∧ getAttribute (heap (document (startup browser st))) script EDITOR_ID
      = Some ("el-" +:+ random36 browser (draws st))
    ∧ draws (startup browser st) = S (draws st).
Proof.
  intros Hboot. remember (document st) as doc eqn:Hdoc.
  symmetry in Hdoc. unfold bootstrapDocument in Hboot.
  destruct (load_standard (parseFromString browser html))
    as (h & hk & bk & Hload & H0 & H1 & H2 & Hb1 & Hh2 & Hal).
  destruct (injectInto_standard browser h hk bk H0 H1 H2 Hb1 Hh2 Hal)
    as (h' & style1 & script1 & Hinj & Hs1 & Hc1 & Hne & Es1 & Ec1
        & Htag & _ & _ & Htags).
  rewrite Hload, Hinj in Hboot. injection Hboot as <-.
  destruct (rootChild_standard h'
              (hk ++ [ElementNode style1 [TextNode STYLE_TEXT]])
              (bk ++ [ElementNode script1 [TextNode SCRIPT_TEXT]]))
    as [_ Hbody].
  { by apply Htags. }
  { by apply Htags. }
  { destruct H2 as [H2|H2]; [left|right]; by apply Htags. }
  set (b := ElementNode 2 (bk ++ [ElementNode script1 [TextNode SCRIPT_TEXT]])).
  assert (walk b = flat_map elementsOf bk ++ [script1]) as Hwalk.
  { unfold b. cbn [walk]. by rewrite flat_map_app. }
  assert (∀ r, r ∈ flat_map elementsOf bk →
               hasAttribute h' r EDITOR_ID = true) as Htagged.
  { intros r Hr. by apply hasAttribute_true, Htag. }
  assert (hasAttribute h' script1 EDITOR_ID = false) as Hun.
  { apply hasAttribute_false. unfold getAttribute. by rewrite Ec1. }
  assert (script1 ∉ flat_map elementsOf bk) as Hout.
  { intros Hin. unfold allocated in Hal. rewrite Forall_forall in Hal.
    destruct (Hal _ Hin) as [e He]. congruence. }
  exists script1, b, (flat_map elementsOf bk).
  split; [exact Hbody|]. split; [exact Hwalk|]. split.
  { cbn [heap]. unfold lowerTag. by rewrite Ec1. }
  split; [exact Htagged|]. split; [exact Hun|].
  assert (bodyOf (document st) = Some b) as Hb by (by rewrite Hdoc).
  unfold startup. rewrite Hb. split; [|split].
  - destruct (makeInteractive_wires browser st b script1 Hb)
      as (Hw1 & Hw2 & Hw3 & Hw4).
    + rewrite Hwalk. apply elem_of_app. right. by left.
    + rewrite Hdoc. cbn [heap]. rewrite Ec1. by eexists.
    + by repeat split.
  - cbn [document post]. unfold makeInteractive. rewrite Hb, Hwalk, Hdoc.
    cbn [heap root].
    rewrite interactiveLoop_app.
    rewrite (interactiveLoop_draws_tagged (flat_map elementsOf bk) h'
               (listeners st) (draws st) Htagged).
    set (h1 := (interactiveLoop browser (flat_map elementsOf bk) h'
                  (listeners st) (draws st)).1.1).
    set (ls1 := (interactiveLoop browser (flat_map elementsOf bk) h'
                   (listeners st) (draws st)).1.2).
    rewrite interactiveLoop_cons. cbn [interactiveLoop heap document].
    apply wiredHeap_assigns.
    + unfold h1. rewrite interactiveLoop_outside by done. rewrite Ec1.
      by eexists.
    + unfold hasAttribute, getAttribute, h1.
      rewrite interactiveLoop_outside by done.
      exact Hun.
  - cbn [draws post]. unfold makeInteractive. rewrite Hb, Hwalk, Hdoc.
    cbn [heap root].
    rewrite interactiveLoop_app.
    rewrite (interactiveLoop_draws_tagged (flat_map elementsOf bk) h'
               (listeners st) (draws st) Htagged).
    set (h1 := (interactiveLoop browser (flat_map elementsOf bk) h'
                  (listeners st) (draws st)).1.1).
    set (ls1 := (interactiveLoop browser (flat_map elementsOf bk) h'
                   (listeners st) (draws st)).1.2).
    rewrite interactiveLoop_cons. cbn [interactiveLoop draws].
    unfold drawsAfter.
    assert (hasAttribute h1 script1 EDITOR_ID = false) as ->; [|done].
    unfold hasAttribute, getAttribute, h1.
    rewrite interactiveLoop_outside by done.
    exact Hun.
Qed.
End Permanent.

(** ** The statements above on the samples *)

Lemma importedDoc_body : bodyOf importedDoc = Some sampleBody.
Proof. vm_compute; reflexivity. Qed.

Lemma sampleBody_once : NoDup (walk sampleBody).
Proof. apply (bool_decide_unpack _). vm_compute. exact I. Qed.

Lemma importedDoc_allocated : allocated (heap importedDoc) (walk sampleBody).
Proof. repeat constructor; vm_compute; by eexists. Qed.

Lemma pageDoc_hero_once r :
  r ∈ allElements (document pageRuntime) →
  getAttribute (heap (document pageRuntime)) r EDITOR_ID = Some "hero" →
  r = 3.
Proof.
  intros Hr. vm_compute in Hr.
  repeat (apply elem_of_cons in Hr as [->|Hr]);
    [..|by apply elem_of_nil in Hr]; vm_compute; congruence.
Qed.

Lemma attachEditorIds_numbers_in_order_witness :
  ∃ d1, attachEditorIds importedDoc = Some d1
      ∧ ∀ i r, untaggedOf (heap importedDoc) (walk sampleBody) !! i = Some r →
          getAttribute (heap d1) r EDITOR_ID = Some ("el-" +:+ pretty (S i)).
Proof.
  apply (attachEditorIds_numbers_in_order importedDoc sampleBody).
  - vm_compute; reflexivity.
  - apply sampleBody_once.
  - apply importedDoc_allocated.
Defined.

Lemma attachEditorIds_writes_identifiers_only_witness :
  ∃ d1, attachEditorIds importedDoc = Some d1
      ∧ root d1 = root importedDoc
      ∧ (∀ r, r ∉ walk sampleBody → heap d1 !! r = heap importedDoc !! r)
      ∧ (∀ r n, attrKey n ≠ attrKey EDITOR_ID →
                getAttribute (heap d1) r n
                = getAttribute (heap importedDoc) r n)
      ∧ (∀ r, style <$> heap d1 !! r = style <$> heap importedDoc !! r)
      ∧ (∀ r, lowerTag (heap d1) r = lowerTag (heap importedDoc) r).
Proof.
  apply (attachEditorIds_writes_identifiers_only importedDoc sampleBody).
  vm_compute; reflexivity.
Defined.

Lemma makeInteractive_prepares_witness :
  clickable (makeInteractive sampleBrowser importedRuntime) 4
  ∧ (isImg (heap (document importedRuntime)) 4 = true →
     getAttribute
       (heap (document (makeInteractive sampleBrowser importedRuntime))) 4
       "draggable" = Some "false").
Proof.
  apply (makeInteractive_prepares sampleBrowser importedRuntime sampleBody 4).
  - vm_compute; reflexivity.
  - vm_compute. repeat constructor.
  - vm_compute. by eexists.
Defined.

Lemma makeInteractive_again_witness :
  document (makeInteractive sampleBrowser
              (makeInteractive sampleBrowser importedRuntime))
    = document (makeInteractive sampleBrowser importedRuntime)
  ∧ draws (makeInteractive sampleBrowser
             (makeInteractive sampleBrowser importedRuntime))
    = draws (makeInteractive sampleBrowser importedRuntime)
  ∧ ∀ r, default 0
           (listeners (makeInteractive sampleBrowser
                         (makeInteractive sampleBrowser importedRuntime))
              !! r)
         = default 0
             (listeners (makeInteractive sampleBrowser importedRuntime) !! r)
           + (if decide (r ∈ walk sampleBody) then 1 else 0).
Proof.
  apply (makeInteractive_again sampleBrowser importedRuntime sampleBody).
  - vm_compute; reflexivity.
  - apply sampleBody_once.
  - apply importedDoc_allocated.
Defined.

Lemma host_selection_agrees_witness :
  (∀ m cur, selectionAgrees (handler sampleHost m cur))
  ∧ (∀ props, selectionAgrees (applyPropsToSelected sampleHost props))
  ∧ (∀ direction, selectionAgrees (toggleFlexDirection sampleHost direction))
  ∧ selectionAgrees (clearSelection sampleHost).
Proof. apply (host_selection_agrees sampleHost). reflexivity. Defined.

Lemma host_patch_reaches_clicked_witness :
  let st1 := click sampleBrowser 3 pageRuntime in
  let h1 := applyPropsToSelected
              (deliver sampleHost (received (posted st1)))
              [("background", "red")] in
  sent h1
  = sent sampleHost ++ [ApplyProps "hero" (Some [("background", "red")])]
  ∧ timers h1 = S (timers sampleHost)
  ∧ selectedId h1 = Some "hero"
  ∧ onMessage sampleBrowser st1
      (ApplyProps "hero" (Some [("background", "red")]))
    = withDocument st1
        (foldl (applyEntry sampleBrowser 3) (document st1)
           [("background", "red")]).
Proof.
  apply (host_patch_reaches_clicked sampleBrowser pageRuntime sampleHost 3
           "hero" (received (posted (click sampleBrowser 3 pageRuntime)))
           [("background", "red")]).
  - apply pageRuntime_clickable. repeat constructor.
  - reflexivity.
  - vm_compute; reflexivity.
  - discriminate.
  - vm_compute; reflexivity.
  - apply pageDoc_hero_once.
  - apply received_messages.
Defined.


Lemma shadowed_element_unreachable_witness :
  heap (document
          (onMessage sampleBrowser copiedRuntime
             (ApplyProps "hero" (Some [("background", "red")])))) !! 4
  = Some (mkElement "P" {[ "data-editor-id" := "hero" ]} ∅).
Proof.
  apply (shadowed_element_unreachable sampleBrowser copiedRuntime
           [0; 1; 2; 3] 4 [] 3).
  - vm_compute; reflexivity.
  - apply (bool_decide_unpack _). vm_compute. exact I.
  - repeat constructor.
  - vm_compute; reflexivity.
  - vm_compute; reflexivity.
  - vm_compute; reflexivity.
Defined.

Lemma makeInteractive_draws_in_order_witness :
  draws (makeInteractive sampleBrowser importedRuntime)
  = draws importedRuntime
    + length (untaggedOf (heap (document importedRuntime)) (walk sampleBody))
  ∧ ∀ i r,
      untaggedOf (heap (document importedRuntime)) (walk sampleBody) !! i
      = Some r →
      getAttribute (heap (document (makeInteractive sampleBrowser
                                      importedRuntime))) r EDITOR_ID
      = Some ("el-" +:+ random36 sampleBrowser (draws importedRuntime + i)).
Proof.
  apply (makeInteractive_draws_in_order sampleBrowser importedRuntime
           sampleBody).
  - vm_compute; reflexivity.
  - apply sampleBody_once.
  - apply importedDoc_allocated.
Defined.

Lemma startup_wires_the_script_witness :
  ∃ script b others,
    bodyOf (document bootedRuntime) = Some b
    ∧ walk b = others ++ [script]
    ∧ lowerTag (heap (document bootedRuntime)) script = Some "script"
    ∧ (∀ r, r ∈ others →
            hasAttribute (heap (document bootedRuntime)) r EDITOR_ID = true)
    ∧ hasAttribute (heap (document bootedRuntime)) script EDITOR_ID = false
    ∧ clickable (startup sampleBrowser bootedRuntime) script
    ∧ getAttribute (heap (document (startup sampleBrowser bootedRuntime)))
        script EDITOR_ID
      = Some ("el-" +:+ random36 sampleBrowser (draws bootedRuntime))
    ∧ draws (startup sampleBrowser bootedRuntime) = S (draws bootedRuntime).
Proof.
  apply (startup_wires_the_script sampleBrowser "<div>Hello</div><img>"
           bootedRuntime).
  vm_compute; reflexivity.
Defined.
